(** * skv-audio: the quote-to-timestamp resolution of the search endpoint

    A shallow embedding of [findQuoteInSegment], [findSegmentForQuote] and of
    the part of the search [handler] that runs once the language model has
    answered (fence stripping, JSON parsing, per-match validation and the
    duplicate filter), together with the data model of [lib/manifest.ts].

    Conventions of the embedding.
    - A JavaScript string is a [string]: a sequence of code units below 256,
      read as Latin-1, on which [toLowerCase], [\w], [\s] and [trim] are
      written out.
    - A JavaScript number that carries a time (seconds) is the rational [Q]
      that the binary64 number stands for; [Math.max], [Math.abs] and the
      comparisons are exact on such values. The difference of the duplicate
      test, [r.timestamp - result.timestamp], is rounded to binary64 as the
      program rounds it, and the product [wordsToCheck * 0.6] is computed in
      binary64. The difference [word.start - segment.metadata.startTime]
      and the sum [currentTime + startTimeOffset] are the exact ones.
    - The [Map<string, Segment>] is an insertion-ordered association list:
      [Map.prototype.set] overwrites in place or appends, [values()] iterates
      in insertion order.
    - A thrown exception is the left summand of [Completion]. *)

From Stdlib Require Import List String Ascii Bool Arith Lia ZArith QArith Qabs.
From Stdlib Require Import Qround Qpower Lqa.
From Stdlib Require Import PrimFloat Uint63 FloatOps SpecFloat.
From Stdlib Require Import DecimalString DecimalZ DecimalPos.
Import ListNotations.

Open Scope string_scope.

(** ** String primitives of the JavaScript runtime *)

Module JsString.

Definition code (c : ascii) : nat := nat_of_ascii c.

Definition between (lo hi n : nat) : bool := (lo <=? n)%nat && (n <=? hi)%nat.

(** Code units with a lower-case partner: A-Z and the Latin-1 capitals
    U+00C0..U+00DE without the multiplication sign U+00D7. *)
Definition isUpperChar (c : ascii) : bool :=
  between 65 90 (code c)
  || (between 192 222 (code c) && negb (code c =? 215)%nat).

Definition toLowerCaseChar (c : ascii) : ascii :=
  if isUpperChar c then ascii_of_nat (code c + 32) else c.

(** [String.prototype.toLowerCase]. *)
Fixpoint toLowerCase (s : string) : string :=
  match s with
  | EmptyString => EmptyString
  | String c r => String (toLowerCaseChar c) (toLowerCase r)
  end.

(** The class [\w]: [[A-Za-z0-9_]]. *)
Definition isWordChar (c : ascii) : bool :=
  between 48 57 (code c) || between 65 90 (code c)
  || (code c =? 95)%nat || between 97 122 (code c).

(** The class [\s] (and the characters [trim] removes): TAB, LF, VT, FF,
    CR, SP and NBSP are its members below 256. *)
Definition isSpaceChar (c : ascii) : bool :=
  between 9 13 (code c) || (code c =? 32)%nat || (code c =? 160)%nat.

Fixpoint filter (p : ascii -> bool) (s : string) : string :=
  match s with
  | EmptyString => EmptyString
  | String c r => if p c then String c (filter p r) else filter p r
  end.

(** [s.replace(/[^\w\s]/g, "")]. *)
Definition removeNonWordNonSpace (s : string) : string :=
  filter (fun c => isWordChar c || isSpaceChar c) s.

Fixpoint trimStart (s : string) : string :=
  match s with
  | EmptyString => EmptyString
  | String c r => if isSpaceChar c then trimStart r else s
  end.

Fixpoint trimEnd (s : string) : string :=
  match s with
  | EmptyString => EmptyString
  | String c r =>
      match trimEnd r with
      | EmptyString => if isSpaceChar c then EmptyString else String c EmptyString
      | r' => String c r'
      end
  end.

(** [String.prototype.trim]. *)
Definition trim (s : string) : string := trimEnd (trimStart s).

(** [s.startsWith(t)]. *)
Definition startsWith (s t : string) : bool := prefix t s.

(** [s.includes(t)]: [t] occurs in [s] at some offset; the empty string
    occurs in every string. *)
Fixpoint includes (s t : string) : bool :=
  if startsWith s t then true
  else match s with
       | EmptyString => false
       | String _ r => includes r t
       end.

(** [s.slice(n)] for [0 <= n]. *)
Fixpoint sliceFrom (n : nat) (s : string) : string :=
  match n, s with
  | O, _ => s
  | S _, EmptyString => EmptyString
  | S n', String _ r => sliceFrom n' r
  end.

(** [s.slice(0, -n)] for [0 < n]: all but the last [n] code units. *)
Definition sliceDropLast (n : nat) (s : string) : string :=
  substring 0 (length s - n) s.

(** [s.endsWith(t)]. *)
Definition endsWith (s t : string) : bool :=
  (length t <=? length s)%nat
  && (sliceFrom (length s - length t) s =? t).

(** [s.split(/\s+/)]: the pieces between maximal runs of white space,
    empty pieces at either end included. [cur] is the piece being read;
    [inSep] tells that the previous code unit was white space. *)
Fixpoint splitAux (inSep : bool) (cur : string) (s : string) : list string :=
  match s with
  | EmptyString => [cur]
  | String c r =>
      if isSpaceChar c
      then (if inSep then splitAux true cur r
            else cur :: splitAux true EmptyString r)
      else splitAux false (cur ++ String c EmptyString) r
  end.

Definition splitWhitespace (s : string) : list string :=
  splitAux false EmptyString s.

End JsString.

Import JsString.

(** ** Numbers *)

Definition Qltb (a b : Q) : bool := negb (Qle_bool b a).

(** [Math.max(a, b)]. *)
Definition Math_max (a b : Q) : Q := if Qle_bool a b then b else a.

(** [Math.min(a, b)] on array lengths. *)
Definition Math_min (a b : nat) : nat := Nat.min a b.

(** [Math.abs]. *)
Definition Math_abs (a : Q) : Q := Qabs a.

(** *** Rounding to binary64

    The difference of two binary64 numbers is, in general, no binary64
    number: [a - b] in the program is the binary64 number nearest to the
    exact difference, the one with an even significand when two are equally
    near, and an infinity from [2^1024] on. *)

(** For [0 < x], the [e] with [2^e <= x < 2^(e+1)]. *)
Definition exponentOf (x : Q) : Z :=
  let e := (Z.log2 (Qnum x) - Z.log2 (Zpos (Qden x)))%Z in
  if Qle_bool (2 ^ e) x then e else (e - 1)%Z.

(** The whole number nearest to [x], the even one of two that are equally
    near. *)
Definition roundHalfEven (x : Q) : Z :=
  let below := Qfloor x in
  let rest := x - inject_Z below in
  if Qltb rest (1 # 2) then below
  else if Qltb (1 # 2) rest then (below + 1)%Z
  else if Z.even below then below else (below + 1)%Z.

(** What an operation on numbers gives: a finite number, or [Infinity] or
    [-Infinity]. *)
Inductive Number : Type :=
| Finite (x : Q)
| Infinity (negative : bool).

(** The binary64 number nearest to [x]: 53 significant bits, the last of
    them worth [2^(e-52)] for [x] between [2^e] and [2^(e+1)] and
    [2^-1074] below [2^-1022]. (A zero has no sign here; no comparison
    tells [-0] from [0].) *)
Definition binary64 (x : Q) : Number :=
  if Qeq_bool x 0 then Finite 0
  else
    let e := Z.max (exponentOf (Qabs x)) (-1022) in
    let ulp := 2 ^ (e - 52) in
    let y := inject_Z (roundHalfEven (Qabs x / ulp)) * ulp in
    if Qltb y (2 ^ 1024) then Finite (if Qltb x 0 then - y else y)
    else Infinity (Qltb x 0).

(** [a - b] on two finite numbers. *)
Definition subtract (a b : Q) : Number := binary64 (a - b).

(** [Math.abs] on what an operation gives. *)
Definition Number_abs (n : Number) : Number :=
  match n with
  | Finite x => Finite (Math_abs x)
  | Infinity _ => Infinity false
  end.

(** [n < b] for a finite [b]. *)
Definition Number_ltb (n : Number) (b : Q) : bool :=
  match n with
  | Finite x => Qltb x b
  | Infinity negative => negative
  end.

(** The value of a binary64 number of the kernel, [None] for a NaN. *)
Definition valueOf (f : PrimFloat.float) : option Number :=
  match Prim2SF f with
  | S754_zero _ => Some (Finite 0)
  | S754_finite negative m e =>
      Some (Finite ((if negative then - inject_Z (Zpos m) else inject_Z (Zpos m))
                    * 2 ^ e))
  | S754_infinity negative => Some (Infinity negative)
  | S754_nan => None
  end.

Definition sameNumber (a b : Number) : bool :=
  match a, b with
  | Finite x, Finite y => Qeq_bool x y
  | Infinity s, Infinity t => Bool.eqb s t
  | _, _ => false
  end.

(** [subtract] gives on the values of [a] and [b] the value of the
    kernel's [a - b]. *)
Definition subtractAgreesOn (p : PrimFloat.float * PrimFloat.float) : bool :=
  match valueOf (fst p), valueOf (snd p),
        valueOf (PrimFloat.sub (fst p) (snd p)) with
  | Some (Finite a), Some (Finite b), Some d => sameNumber (subtract a b) d
  | _, _, _ => false
  end.

(** A count as the binary64 number JavaScript holds it in. *)
Definition numberOfNat (n : nat) : PrimFloat.float :=
  PrimFloat.of_uint63 (Uint63.of_Z (Z.of_nat n)).

(** The literal [0.6], that is the binary64 number nearest to 3/5. *)
Definition lit_0_6 : PrimFloat.float := 0x1.3333333333333p-1%float.

(** ** Data model ([lib/manifest.ts]) *)

Record Word := mkWord {
  word : string;
  start : Q;
  end_ : Q
}.

Record Transcript := mkTranscript {
  text : string;
  words : list Word
}.

Record SegmentMetadata := mkSegmentMetadata {
  subject : string;
  description : string;
  segmentIndex : Z;
  duration : Q;
  startTime : Q;
  endTime : Q
}.

Record Segment := mkSegment {
  audioFile : string;
  metadata : SegmentMetadata;
  transcript : Transcript
}.

Record Session := mkSession {
  sessionId : string;
  totalDuration : Q;
  totalWords : Z;
  segments : list Segment
}.

Record Manifest := mkManifest {
  createdAt : string;
  totalSessions : Z;
  sessions : list Session
}.

(** ** Data of the search endpoint *)

Record SearchResult := mkSearchResult {
  r_audioFile : string;
  r_timestamp : Q;
  r_subject : string;
  r_quote : string
}.

Record GeminiMatch := mkGeminiMatch {
  m_audioFile : string;
  m_quote : string;
  m_subject : string
}.

(** The object [{ found, timestamp }] returned by [findQuoteInSegment]. *)
Record QuoteCheck := mkQuoteCheck {
  found : bool;
  timestamp : Q
}.

(** ** [findQuoteInSegment] *)

(** [s.toLowerCase().replace(/[^\w\s]/g, "").trim()], applied to the quote
    and to every transcript word. *)
Definition clean (s : string) : string :=
  trim (removeNonWordNonSpace (toLowerCase s)).

(** [cleanQuote.split(/\s+/).filter(w => w.length > 0)]. *)
Definition quoteWordsOf (quote : string) : list string :=
  List.filter (fun w => (0 <? length w)%nat) (splitWhitespace (clean quote)).

(** The test that opens a candidate (line 101):
    [cleanWord === firstQuoteWord || cleanWord.includes(firstQuoteWord)]. *)
Definition isCandidate (cleanWord firstQuoteWord : string) : bool :=
  (cleanWord =? firstQuoteWord) || includes cleanWord firstQuoteWord.

(** The test of the verification loop (line 109):
    [nextWord === quoteWords[j] || nextWord.includes(quoteWords[j])
     || quoteWords[j].includes(nextWord)]. *)
Definition wordsAgree (nextWord quoteWord : string) : bool :=
  (nextWord =? quoteWord) || includes nextWord quoteWord
  || includes quoteWord nextWord.

(** One turn of the inner loop at [j]: the count after it. [quoteWords[j]]
    exists for every [j] the loop visits, as [j < wordsToCheck <=
    quoteWords.length]. *)
Definition verifyStep (ws : list Word) (quoteWords : list string)
    (i j matchCount : nat) : nat :=
  match nth_error ws (i + j) with
  | Some next =>
      match nth_error quoteWords j with
      | Some q => if wordsAgree (clean (word next)) q
                  then S matchCount else matchCount
      | None => matchCount
      end
  | None => matchCount
  end.

(** [for (let j = ...; j < wordsToCheck; j++)] with [n] turns left. *)
Fixpoint verifyLoop (ws : list Word) (quoteWords : list string)
    (i j n matchCount : nat) : nat :=
  match n with
  | O => matchCount
  | S n' =>
      verifyLoop ws quoteWords i (S j) n' (verifyStep ws quoteWords i j matchCount)
  end.

(** [matchCount >= wordsToCheck * 0.6], in binary64 as JavaScript does it. *)
Definition reachesThreshold (matchCount wordsToCheck : nat) : bool :=
  PrimFloat.leb (PrimFloat.mul (numberOfNat wordsToCheck) lit_0_6)
                (numberOfNat matchCount).

(** [for (let i = ...; i < words.length; i++)]: [rest] is what is left of
    [words] from index [i] on. *)
Fixpoint scanWords (segment : Segment) (quoteWords : list string)
    (firstQuoteWord : string) (rest : list Word) (i : nat) : QuoteCheck :=
  match rest with
  | [] => mkQuoteCheck false 0
  | w :: rest' =>
      let cleanWord := clean (word w) in
      if isCandidate cleanWord firstQuoteWord
      then
        let wordsToCheck := Math_min (List.length quoteWords) 5 in
        let matchCount :=
          verifyLoop (words (transcript segment)) quoteWords i 1
                     (wordsToCheck - 1) 1 in
        if reachesThreshold matchCount wordsToCheck
        then
          let absoluteTime := start w in
          let relativeTime := absoluteTime - startTime (metadata segment) in
          mkQuoteCheck true (Math_max 0 relativeTime)
        else scanWords segment quoteWords firstQuoteWord rest' (S i)
      else scanWords segment quoteWords firstQuoteWord rest' (S i)
  end.

Definition findQuoteInSegment (segment : Segment) (quote : string) : QuoteCheck :=
  match words (transcript segment) with
  | [] =>
      (* no word timings ([!words || words.length === 0]): search the text *)
      let textLower := toLowerCase (text (transcript segment)) in
      let quoteLower := toLowerCase quote in
      if includes textLower quoteLower
      then mkQuoteCheck true 0
      else mkQuoteCheck false 0
  | _ :: _ =>
      let quoteWords := quoteWordsOf quote in
      match quoteWords with
      | [] => mkQuoteCheck false 0
      | firstQuoteWord :: _ =>
          scanWords segment quoteWords firstQuoteWord
                    (words (transcript segment)) 0
      end
  end.

(** ** The segment map

    [new Map<string, Segment>()] with [set], [get] and [values()]. *)

Definition SegmentMap := list (string * Segment).

Fixpoint map_set (m : SegmentMap) (k : string) (v : Segment) : SegmentMap :=
  match m with
  | [] => [(k, v)]
  | (k', v') :: r => if k' =? k then (k, v) :: r else (k', v') :: map_set r k v
  end.

Fixpoint map_get (m : SegmentMap) (k : string) : option Segment :=
  match m with
  | [] => None
  | (k', v') :: r => if k' =? k then Some v' else map_get r k
  end.

Definition map_values (m : SegmentMap) : list Segment := List.map snd m.

(** [manifest.sessions.forEach(session => session.segments.forEach(segment =>
    segmentMap.set(segment.audioFile, segment)))] from the empty map. *)
Definition buildSegmentMap (manifest : Manifest) : SegmentMap :=
  fold_left
    (fun m session =>
       fold_left (fun m' segment => map_set m' (audioFile segment) segment)
                 (segments session) m)
    (sessions manifest) [].

(** ** [findSegmentForQuote] *)

(** [for (const segment of segments.values())]. *)
Fixpoint findSegmentAmong (segs : list Segment) (quote : string)
  : option (Segment * Q) :=
  match segs with
  | [] => None
  | segment :: rest =>
      let result := findQuoteInSegment segment quote in
      if found result then Some (segment, timestamp result)
      else findSegmentAmong rest quote
  end.

Definition findSegmentForQuote (segmentMap : SegmentMap) (quote : string)
  : option (Segment * Q) :=
  findSegmentAmong (map_values segmentMap) quote.

(** ** Validation of the model's matches (the loop of [handler]) *)

(** What the fall-back search pushes on [results]. *)
Definition pushCorrected (segmentMap : SegmentMap) (quote : string)
    (results : list SearchResult) : list SearchResult :=
  match findSegmentForQuote segmentMap quote with
  | Some (segment, ts) =>
      results ++ [mkSearchResult (audioFile segment) ts
                                 (subject (metadata segment)) quote]
  | None => results
  end.

(** The body of [for (const match of geminiMatches)]. *)
Definition validateMatch (segmentMap : SegmentMap) (results : list SearchResult)
    (m : GeminiMatch) : list SearchResult :=
  match map_get segmentMap (m_audioFile m) with
  | Some claimedSegment =>
      let checkResult := findQuoteInSegment claimedSegment (m_quote m) in
      if found checkResult
      then results ++ [mkSearchResult (m_audioFile m) (timestamp checkResult)
                                      (subject (metadata claimedSegment))
                                      (m_quote m)]
      else pushCorrected segmentMap (m_quote m) results
  | None => pushCorrected segmentMap (m_quote m) results
  end.

Definition validateMatches (segmentMap : SegmentMap)
    (geminiMatches : list GeminiMatch) : list SearchResult :=
  fold_left (validateMatch segmentMap) geminiMatches [].

(** ** Removal of duplicates *)

(** The callback of [findIndex]:
    [r.audioFile === result.audioFile
     && Math.abs(r.timestamp - result.timestamp) < 10]. *)
Definition isDuplicateOf (result r : SearchResult) : bool :=
  (r_audioFile r =? r_audioFile result)
  && Number_ltb (Number_abs (subtract (r_timestamp r) (r_timestamp result))) 10.

(** [Array.prototype.findIndex]; [None] is its [-1]. *)
Fixpoint findIndexFrom {A : Type} (p : A -> bool) (l : list A) (i : nat)
  : option nat :=
  match l with
  | [] => None
  | x :: r => if p x then Some i else findIndexFrom p r (S i)
  end.

Definition findIndex {A : Type} (p : A -> bool) (l : list A) : option nat :=
  findIndexFrom p l 0.

(** [Array.prototype.filter] with the three-argument callback
    [(element, index, self)]. *)
Fixpoint filterFrom {A : Type} (f : A -> nat -> list A -> bool)
    (self rest : list A) (index : nat) : list A :=
  match rest with
  | [] => []
  | x :: r =>
      if f x index self then x :: filterFrom f self r (S index)
      else filterFrom f self r (S index)
  end.

Definition filterWithIndex {A : Type} (f : A -> nat -> list A -> bool)
    (self : list A) : list A :=
  filterFrom f self self 0.

Definition option_nat_eqb (a : option nat) (b : nat) : bool :=
  match a with
  | Some n => (n =? b)%nat
  | None => false
  end.

Definition uniqueResults (results : list SearchResult) : list SearchResult :=
  filterWithIndex
    (fun result index self =>
       option_nat_eqb (findIndex (isDuplicateOf result) self) index)
    results.

(** ** The handler at run time

    TypeScript's [GeminiMatch[]] is not checked when the program runs: what
    [JSON.parse] returns is any JSON value. This part follows the same code
    on such values, exceptions included. *)

#[warnings="-register-all"]
Inductive JsValue : Type :=
| JsUndefined
| JsNull
| JsBoolean (b : bool)
| JsNumber (q : Q)
| JsString (s : string)
| JsArray (elements : list JsValue)
| JsObject (properties : list (string * JsValue)).

Inductive Exception : Type :=
| SyntaxError
| TypeError.

Definition Completion (A : Type) : Type := (Exception + A)%type.

Definition ret {A : Type} (a : A) : Completion A := inr a.
Definition throw {A : Type} (e : Exception) : Completion A := inl e.

Definition bind {A B : Type} (c : Completion A) (k : A -> Completion B)
  : Completion B :=
  match c with
  | inl e => inl e
  | inr a => k a
  end.

Notation "x <- c ;; k" := (bind c (fun x => k))
  (at level 61, c at next level, right associativity).

(** The own property [k] of a parsed object, which holds one value per
    key. *)
Fixpoint lookupProperty (properties : list (string * JsValue)) (k : string)
  : JsValue :=
  match properties with
  | [] => JsUndefined
  | (k', v) :: r => if k' =? k then v else lookupProperty r k
  end.

(** [v.k] for the keys the handler reads ([audioFile], [quote]), which no
    built-in prototype defines: a [TypeError] on [null] and [undefined], the
    own property of an object, [undefined] on any other value. *)
Definition getProperty (v : JsValue) (k : string) : Completion JsValue :=
  match v with
  | JsUndefined | JsNull => throw TypeError
  | JsObject properties => ret (lookupProperty properties k)
  | _ => ret JsUndefined
  end.

(** [segmentMap.get(key)]: the keys of the map are strings, so only a string
    can be found. *)
Definition map_get_value (segmentMap : SegmentMap) (key : JsValue)
  : option Segment :=
  match key with
  | JsString k => map_get segmentMap k
  | _ => None
  end.

(** [findQuoteInSegment] called with any value: both of its paths evaluate
    [quote.toLowerCase()] before they return, which throws unless [quote]
    is a string. *)
Definition findQuoteInSegmentJs (segment : Segment) (quote : JsValue)
  : Completion (string * QuoteCheck) :=
  match quote with
  | JsString q => ret (q, findQuoteInSegment segment q)
  | _ => throw TypeError
  end.

Fixpoint findSegmentAmongJs (segs : list Segment) (quote : JsValue)
  : Completion (option (Segment * Q * string)) :=
  match segs with
  | [] => ret None
  | segment :: rest =>
      r <- findQuoteInSegmentJs segment quote ;;
      let '(q, result) := r in
      if found result then ret (Some (segment, timestamp result, q))
      else findSegmentAmongJs rest quote
  end.

Definition findSegmentForQuoteJs (segmentMap : SegmentMap) (quote : JsValue)
  : Completion (option (Segment * Q * string)) :=
  findSegmentAmongJs (map_values segmentMap) quote.

Definition pushCorrectedJs (segmentMap : SegmentMap) (quote : JsValue)
    (results : list SearchResult) : Completion (list SearchResult) :=
  correctMatch <- findSegmentForQuoteJs segmentMap quote ;;
  match correctMatch with
  | Some (segment, ts, q) =>
      ret (results ++ [mkSearchResult (audioFile segment) ts
                                      (subject (metadata segment)) q])%list
  | None => ret results
  end.

(** The body of [for (const match of geminiMatches)]. A result is pushed
    only after the quote has passed [findQuoteInSegment], hence is a
    string; a key found in the map is a string as well. *)
Definition validateMatchJs (segmentMap : SegmentMap)
    (results : list SearchResult) (m : JsValue)
  : Completion (list SearchResult) :=
  key <- getProperty m "audioFile" ;;
  match key, map_get_value segmentMap key with
  | JsString k, Some claimedSegment =>
      quote <- getProperty m "quote" ;;
      r <- findQuoteInSegmentJs claimedSegment quote ;;
      let '(q, checkResult) := r in
      if found checkResult
      then ret (results ++ [mkSearchResult k (timestamp checkResult)
                                           (subject (metadata claimedSegment))
                                           q])%list
      else pushCorrectedJs segmentMap quote results
  | _, _ =>
      quote <- getProperty m "quote" ;;
      pushCorrectedJs segmentMap quote results
  end.

Fixpoint validateMatchesJs (segmentMap : SegmentMap)
    (results : list SearchResult) (geminiMatches : list JsValue)
  : Completion (list SearchResult) :=
  match geminiMatches with
  | [] => ret results
  | m :: rest =>
      results' <- validateMatchJs segmentMap results m ;;
      validateMatchesJs segmentMap results' rest
  end.

(** The JSON value of a well-typed match. *)
Definition jsOfMatch (m : GeminiMatch) : JsValue :=
  JsObject [("audioFile", JsString (m_audioFile m));
            ("subject", JsString (m_subject m));
            ("quote", JsString (m_quote m))].

(** ** The response to the caller *)

Inductive ResponseBody : Type :=
| Results (results : list SearchResult)
| Error (error : string).

Record Response := mkResponse {
  status : nat;
  body : ResponseBody
}.

(** The clean-up of the model's text before it is parsed. *)
Definition cleanResponse (responseText : string) : string :=
  let cleanedResponse := trim responseText in
  let cleanedResponse :=
    if startsWith cleanedResponse "```json" then sliceFrom 7 cleanedResponse
    else if startsWith cleanedResponse "```" then sliceFrom 3 cleanedResponse
    else cleanedResponse in
  let cleanedResponse :=
    if endsWith cleanedResponse "```" then sliceDropLast 3 cleanedResponse
    else cleanedResponse in
  trim cleanedResponse.

(** [response.text || "[]"]: the text, or "[]" when it is absent or empty. *)
Definition orEmptyArray (text_ : option string) : string :=
  match text_ with
  | Some t => if (length t =? 0)%nat then "[]" else t
  | None => "[]"
  end.

Section Handler.

(** [JSON.parse]: a value, or the [SyntaxError] it throws. *)
Variable JSON_parse : string -> Completion JsValue.

(** The inner [try { JSON.parse ... } catch]: the array the loop runs
    over. *)
Definition parseMatches (cleanedResponse : string) : list JsValue :=
  match JSON_parse cleanedResponse with
  | inr (JsArray elements) => elements
  | inr _ => []
  | inl _ => []
  end.

(** The [try] block of [handler] from the model's answer on; [text_] is
    [response.text], absent when [None]. An exception that escapes the loop
    reaches the outer [catch]. The guards on the method, the question and
    the API key, which answer before the model is called, and the call
    itself are not part of the embedding. *)
Definition handler (manifest : Manifest) (text_ : option string) : Response :=
  let segmentMap := buildSegmentMap manifest in
  let responseText := orEmptyArray text_ in
  let geminiMatches := parseMatches (cleanResponse responseText) in
  match validateMatchesJs segmentMap [] geminiMatches with
  | inr results => mkResponse 200 (Results (uniqueResults results))
  | inl _ => mkResponse 500 (Error "Failed to search transcripts")
  end.

End Handler.

(** ** A small corpus for the examples *)

Module Corpus.

Definition meta (subj : string) (offset : Q) : SegmentMetadata :=
  mkSegmentMetadata subj "" 0 60 offset (offset + 60).

Definition spoken (w : string) (t : Q) : Word := mkWord w t (t + 1).

(** Starts 100 s into the recording. *)
Definition segA : Segment :=
  mkSegment "a.mp3" (meta "childhood" 100)
    (mkTranscript "He said hello world, my friend"
       [spoken "He" 112; spoken "said" 115; spoken "hello" 125;
        spoken "world," 126; spoken "my" 130; spoken "friend" 131]).

Definition segB : Segment :=
  mkSegment "b.mp3" (meta "school" 0)
    (mkTranscript "Good morning everyone"
       [spoken "Good" 3; spoken "morning" 4; spoken "everyone" 5]).

(** A segment without word timings. *)
Definition segC : Segment :=
  mkSegment "c.mp3" (meta "travel" 0)
    (mkTranscript "hello world. nice" []).

(** A transcript whose only word is shorter than the quote's first word. *)
Definition segHe : Segment :=
  mkSegment "he.mp3" (meta "short" 0) (mkTranscript "he" [spoken "he" 0]).

Definition manifest : Manifest :=
  mkManifest "2024-01-01" 1 [mkSession "s1" 180 11 [segA; segB; segC]].

Definition at_ (file : string) (t : Q) : SearchResult :=
  mkSearchResult file t "subject" "quote".


(** The binary64 numbers nearest to 0.1 and to 10.1. *)
Definition double_0_1 : Q := 3602879701896397 # 36028797018963968.
Definition double_10_1 : Q := 5685794529555251 # 562949953421312.

(** Two words that start at these times. *)
Definition segNear : Segment :=
  mkSegment "near.mp3" (meta "rounding" 0)
    (mkTranscript "one two"
       [spoken "one" double_0_1; spoken "two" double_10_1]).

Definition manifestNear : Manifest :=
  mkManifest "2024-01-01" 1 [mkSession "s2" 60 1 [segNear]].

(** A parser that knows the empty array and rejects everything else. *)
Definition parseEmptyArrayOnly (s : string) : Completion JsValue :=
  if s =? "[]" then ret (JsArray []) else throw SyntaxError.

(** A parser that answers every text with one and the same match. *)
Definition parseAs (m : GeminiMatch) (s : string) : Completion JsValue :=
  ret (JsArray [jsOfMatch m]).

End Corpus.

(** ** The candidate at an index, as one predicate *)

(** The count the verification loop reaches from index [i]. *)
Definition matchCountAt (ws : list Word) (quoteWords : list string) (i : nat) : nat :=
  let wordsToCheck := Math_min (List.length quoteWords) 5 in
  verifyLoop ws quoteWords i 1 (wordsToCheck - 1) 1.

(** That count reaches the threshold. *)
Definition acceptsAt (ws : list Word) (quoteWords : list string) (i : nat) : bool :=
  reachesThreshold (matchCountAt ws quoteWords i)
                   (Math_min (List.length quoteWords) 5).

(** The pair [(i + j, j)] of the verification loop agrees. *)
Definition agreesAt (ws : list Word) (quoteWords : list string) (i j : nat) : bool :=
  match nth_error ws (i + j), nth_error quoteWords j with
  | Some next, Some q => wordsAgree (clean (word next)) q
  | _, _ => false
  end.

(** Index [i] passes the candidate test and the threshold. *)
Definition candidateAcceptedAt (ws : list Word) (quoteWords : list string)
    (i : nat) : bool :=
  match nth_error ws i, quoteWords with
  | Some w, firstQuoteWord :: _ =>
      isCandidate (clean (word w)) firstQuoteWord && acceptsAt ws quoteWords i
  | _, _ => false
  end.

(** ** Notions used in the statements *)

(** Every character of the string passes [p]. *)
Fixpoint allChars (p : ascii -> bool) (s : string) : bool :=
  match s with
  | EmptyString => true
  | String c r => p c && allChars p r
  end.





(** The reading of C3 with containment in both directions. *)
Definition candidateRuleBothDirections (segment : Segment) (quote : string) : Prop :=
  forall firstQuoteWord restQuoteWords i w,
    quoteWordsOf quote = firstQuoteWord :: restQuoteWords ->
    nth_error (words (transcript segment)) i = Some w ->
    (isCandidate (clean (word w)) firstQuoteWord = true
     <-> (clean (word w) = firstQuoteWord
          \/ includes (clean (word w)) firstQuoteWord = true
          \/ includes firstQuoteWord (clean (word w)) = true)).

Definition keys (m : SegmentMap) : list string := List.map fst m.

(** Every segment sits under its own [audioFile], once. *)
Definition keyedByAudioFile (m : SegmentMap) : Prop :=
  NoDup (keys m) /\ forall k v, In (k, v) m -> k = audioFile v.

(** A result names a segment of the map in which its quote is found. *)
Definition verified (segmentMap : SegmentMap) (r : SearchResult) : Prop :=
  exists segment,
    map_get segmentMap (r_audioFile r) = Some segment
    /\ found (findQuoteInSegment segment (r_quote r)) = true.

(** The filter, read as one pass that remembers everything it has gone
    through, kept or not. *)
Fixpoint firstOccurrences (seen rest : list SearchResult) : list SearchResult :=
  match rest with
  | [] => []
  | r :: rest' =>
      if existsb (isDuplicateOf r) seen
      then firstOccurrences (seen ++ [r]) rest'
      else r :: firstOccurrences (seen ++ [r]) rest'
  end.

(** A string that is empty or begins with a character that is no white
    space. *)
Definition startsTrimmed (s : string) : bool :=
  match s with
  | EmptyString => true
  | String c _ => negb (isSpaceChar c)
  end.

(** ** Notions used in the further properties *)

(** A normalized word that is one token: not empty, no white space in it. *)
Definition isToken (s : string) : bool :=
  (0 <? length s)%nat && allChars (fun c => negb (isSpaceChar c)) s.

(** Words written one after another with a single space between them. *)
Fixpoint joinWords (l : list string) : string :=
  match l with
  | [] => ""
  | [w] => w
  | w :: rest => w ++ " " ++ joinWords rest
  end.

(** The non-empty pieces of [splitWhitespace], read off in one pass; [cur]
    is the piece being read. *)
Fixpoint tokens (cur : string) (s : string) : list string :=
  match s with
  | EmptyString => if (0 <? length cur)%nat then [cur] else []
  | String c r =>
      if isSpaceChar c
      then (if (0 <? length cur)%nat then cur :: tokens "" r else tokens "" r)
      else tokens (cur ++ String c "") r
  end.


(** [l1] is [l2] with some elements left out, the rest in their order. *)
Inductive Subsequence {A : Type} : list A -> list A -> Prop :=
| Subsequence_nil : Subsequence [] []
| Subsequence_keep x l1 l2 : Subsequence l1 l2 -> Subsequence (x :: l1) (x :: l2)
| Subsequence_drop x l1 l2 : Subsequence l1 l2 -> Subsequence l1 (x :: l2).


(** An element of the model's array that is an object whose [quote] is a
    string. *)
Definition hasStringQuote (v : JsValue) : bool :=
  match v with
  | JsObject properties =>
      match lookupProperty properties "quote" with
      | JsString _ => true
      | _ => false
      end
  | _ => false
  end.


(** ** Listing and lookup ([lib/manifest.ts]) *)

Record SegmentWithSession := mkSegmentWithSession {
  s_audioFile : string;
  s_sessionId : string;
  s_subject : string;
  s_description : string;
  s_duration : Q;
  s_segmentIndex : Z
}.

Record TranscriptWithOffset := mkTranscriptWithOffset {
  t_transcript : Transcript;
  t_startTime : Q
}.

(** [getManifest]: the manifest kept in [cachedManifest] when there is one,
    else the file read and parsed ([readManifest], or what reading or
    parsing throws), which is then kept. The second component is
    [cachedManifest] after the call. *)
Definition getManifest (cachedManifest : option Manifest)
    (readManifest : Completion Manifest)
  : Completion Manifest * option Manifest :=
  match cachedManifest with
  | Some manifest => (ret manifest, cachedManifest)
  | None =>
      match readManifest with
      | inr manifest => (ret manifest, Some manifest)
      | inl e => (throw e, None)
      end
  end.

(** [getAllSegments], on the manifest [getManifest] returned: the two nested
    loops with their [segments.push]. *)
Definition getAllSegments (manifest : Manifest) : list SegmentWithSession :=
  fold_left
    (fun listed session =>
       fold_left
         (fun listed' segment =>
            listed'
            ++ [mkSegmentWithSession (audioFile segment) (sessionId session)
                  (subject (metadata segment)) (description (metadata segment))
                  (duration (metadata segment))
                  (segmentIndex (metadata segment))])%list
         (segments session) listed)
    (sessions manifest) [].

(** The inner loop of [getTranscriptByAudioFile]; [None] when it runs to its
    end. *)
Fixpoint transcriptAmongSegments (segs : list Segment) (file : string)
  : option TranscriptWithOffset :=
  match segs with
  | [] => None
  | segment :: rest =>
      if audioFile segment =? file
      then Some (mkTranscriptWithOffset (transcript segment)
                                        (startTime (metadata segment)))
      else transcriptAmongSegments rest file
  end.

(** The outer loop. *)
Fixpoint transcriptAmongSessions (ss : list Session) (file : string)
  : option TranscriptWithOffset :=
  match ss with
  | [] => None
  | session :: rest =>
      match transcriptAmongSegments (segments session) file with
      | Some result => Some result
      | None => transcriptAmongSessions rest file
      end
  end.

(** [getTranscriptByAudioFile], on the manifest [getManifest] returned;
    [None] is its [null]. *)
Definition getTranscriptByAudioFile (manifest : Manifest) (file : string)
  : option TranscriptWithOffset :=
  transcriptAmongSessions (sessions manifest) file.

(** The segments of all sessions, in the order of the manifest. *)
Definition allSegments (manifest : Manifest) : list Segment :=
  flat_map segments (sessions manifest).

Definition withOffset (segment : Segment) : TranscriptWithOffset :=
  mkTranscriptWithOffset (transcript segment) (startTime (metadata segment)).

Definition hasAudioFile (file : string) (segment : Segment) : bool :=
  audioFile segment =? file.


(** ** The other endpoints

    Each [handler] is given what it reads from the request, and what
    [getManifest] returned or threw where it calls it. *)

(** The status and the JSON body of a reply. *)
Record Reply (B : Type) := mkReply {
  code : nat;
  content : B
}.

Arguments mkReply {B} _ _.
Arguments code {B} _.
Arguments content {B} _.

(** A value of [req.query]: absent, one string, or several. *)
Inductive QueryValue : Type :=
| QueryUndefined
| QueryString (s : string)
| QueryArray (values : list string).

(** [pages/api/segments/[audioFile]/transcript]. *)
Module TranscriptApi.

Inductive Body : Type :=
| Data (transcript : Transcript) (startTime : Q)
| Error (error : string).

Definition handler (method : string) (audioFile : QueryValue)
    (manifest : Completion Manifest) : Reply Body :=
  if negb (method =? "GET")
  then mkReply 405 (Error ("Method " ++ method ++ " Not Allowed"))
  else
    match audioFile with
    | QueryString file =>
        if (length file =? 0)%nat
        then mkReply 400 (Error "Audio file parameter is required")
        else
          match manifest with
          | inr m =>
              match getTranscriptByAudioFile m file with
              | None => mkReply 404 (Error "Transcript not found")
              | Some result =>
                  mkReply 200 (Data (t_transcript result) (t_startTime result))
              end
          | inl _ => mkReply 500 (Error "Failed to fetch transcript")
          end
    | _ => mkReply 400 (Error "Audio file parameter is required")
    end.

End TranscriptApi.

(** [pages/api/segments]. *)
Module SegmentsApi.

Inductive Body : Type :=
| Data (segments : list SegmentWithSession)
| Error (error : string).

Definition handler (method : string) (manifest : Completion Manifest)
  : Reply Body :=
  if negb (method =? "GET")
  then mkReply 405 (Error ("Method " ++ method ++ " Not Allowed"))
  else
    match manifest with
    | inr m => mkReply 200 (Data (getAllSegments m))
    | inl _ => mkReply 500 (Error "Failed to fetch segments")
    end.

End SegmentsApi.

(** [pages/api/auth]. *)
Module AuthApi.

Definition SITE_PASSWORD : string := "countdown".

(** [password === SITE_PASSWORD]. *)
Definition isSitePassword (password : JsValue) : bool :=
  match password with
  | JsString s => s =? SITE_PASSWORD
  | _ => false
  end.

(** The body of the reply is [{ success }]. [const { password } = req.body]
    throws on a body that is [undefined] or [null]; nothing catches it. *)
Definition handler (method : string) (body : JsValue)
  : Completion (Reply bool) :=
  if negb (method =? "POST")
  then ret (mkReply 405 false)
  else
    password <- getProperty body "password" ;;
    if isSitePassword password
    then ret (mkReply 200 true)
    else ret (mkReply 401 false).

End AuthApi.

(** ** [PasswordGate] *)

Module PasswordGate.

Definition AUTH_KEY : string := "narrated_auth".

(** [sessionStorage], as the pairs it holds. *)
Definition Storage := list (string * string).

Fixpoint getItem (storage : Storage) (key : string) : option string :=
  match storage with
  | [] => None
  | (k, v) :: rest => if k =? key then Some v else getItem rest key
  end.

Fixpoint setItem (storage : Storage) (key value : string) : Storage :=
  match storage with
  | [] => [(key, value)]
  | (k, v) :: rest =>
      if k =? key then (key, value) :: rest
      else (k, v) :: setItem rest key value
  end.

(** The four [useState] cells. *)
Record State := mkState {
  isAuthenticated : option bool;
  password : string;
  error : string;
  loading : bool
}.

Definition initial : State := mkState None "" "" false.

(** The effect run on mount: [setIsAuthenticated(stored === "true")]. *)
Definition mount (sessionStorage : Storage) (st : State) : State :=
  let stored := getItem sessionStorage AUTH_KEY in
  mkState (Some match stored with
                | Some v => v =? "true"
                | None => false
                end)
          (password st) (error st) (loading st).

(** [response.ok]. *)
Definition ok (status : nat) : bool := (200 <=? status)%nat && (status <=? 299)%nat.

(** [handleSubmit], as the state and the storage once it has run to its
    end. [fetch] is the POST of [{ password }] to [/api/auth]: the status of
    the response, or [None] when the promise is rejected. *)
Definition handleSubmit (fetch : JsValue -> option nat)
    (sessionStorage : Storage) (st : State) : State * Storage :=
  match fetch (JsObject [("password", JsString (password st))]) with
  | Some status =>
      if ok status
      then (mkState (Some true) (password st) "" false,
            setItem sessionStorage AUTH_KEY "true")
      else (mkState (isAuthenticated st) "" "Incorrect password" false,
            sessionStorage)
  | None =>
      (mkState (isAuthenticated st) (password st) "Something went wrong" false,
       sessionStorage)
  end.

(** What the component renders. *)
Inductive View : Type :=
| LoadingView
| PasswordForm
| Children.

Definition render (st : State) : View :=
  match isAuthenticated st with
  | None => LoadingView
  | Some false => PasswordForm
  | Some true => Children
  end.

(** The endpoint behind [fetch]: the request body arrives parsed, and a
    handler that throws is answered 500 by the framework. *)
Definition authEndpoint (body : JsValue) : option nat :=
  match AuthApi.handler "POST" body with
  | inr reply => Some (code reply)
  | inl _ => Some 500%nat
  end.

End PasswordGate.


(** ** [formatTime] ([ShareButton], [SearchBox]) and [formatDuration]
    ([AudioCard]) *)

(** [Math.floor], whose value is a whole number. *)
Definition Math_floor (x : Q) : Z := Qfloor x.

(** [a % b]: what is left of [a] once [b] is taken from it a whole number of
    times, that number being [a / b] cut towards zero. *)
Definition remainder (a b : Q) : Q :=
  let quotient := a / b in
  let whole := if Qle_bool 0 quotient then Qfloor quotient else Qceiling quotient in
  a - b * inject_Z whole.

(** [n.toString()] for a whole number [n] below [10^21], which is written
    in plain digits. *)
Definition numberToString (n : Z) : string :=
  NilZero.string_of_int (Z.to_int n).

Fixpoint replicate (n : nat) (c : ascii) : string :=
  match n with
  | O => EmptyString
  | S n' => String c (replicate n' c)
  end.

(** [s.padStart(targetLength, fill)] for a filler of one character. *)
Definition padStart (targetLength : nat) (fill : ascii) (s : string) : string :=
  replicate (targetLength - length s) fill ++ s.

(** The quotient [seconds / 60] is the exact one; the program's, rounded
    to binary64, has the same floor for times below [2^52]. *)
Definition formatTime (seconds : Q) : string :=
  let mins := Math_floor (seconds / 60) in
  let secs := Math_floor (remainder seconds 60) in
  numberToString mins ++ ":" ++ padStart 2 "0" (numberToString secs).

(** The same body under its other name. *)
Definition formatDuration (seconds : Q) : string :=
  let mins := Math_floor (seconds / 60) in
  let secs := Math_floor (remainder seconds 60) in
  numberToString mins ++ ":" ++ padStart 2 "0" (numberToString secs).

(** The character of a decimal digit. *)
Definition digitChar (d : Z) : ascii := ascii_of_nat (48 + Z.to_nat d).

(** ** [Subtitles] *)

Module Subtitles.

(** What the component keeps of the words it has fetched:
    [w.word.trim() !== "" && w.word !== "..."]. *)
Definition keptWords (ws : list Word) : list Word :=
  List.filter
    (fun w => negb (trim (word w) =? "") && negb (word w =? "..."))
    ws.

(** The loop that finds the current word; [rest] is what is left of [words]
    from index [i] on, and [-1] stands for no word yet. *)
Fixpoint currentWordLoop (adjustedTime : Q) (rest : list Word) (i : Z)
    (currentWordIndex : Z) : Z :=
  match rest with
  | [] => currentWordIndex
  | w :: rest' =>
      if Qle_bool (start w) adjustedTime && Qle_bool adjustedTime (end_ w)
      then i
      else if match rest' with
              | nextWord :: _ =>
                  Qltb (end_ w) adjustedTime
                  && Qltb adjustedTime (start nextWord)
              | [] => false
              end
      then i
      else if (i =? 0)%Z && Qltb adjustedTime (start w)
      then 0%Z
      else
        currentWordLoop adjustedTime rest' (i + 1)%Z
          (if Qle_bool (start w) adjustedTime then i else currentWordIndex)
  end.

Definition currentWordIndex (ws : list Word) (currentTime startTimeOffset : Q)
  : Z :=
  let adjustedTime := currentTime + startTimeOffset in
  currentWordLoop adjustedTime ws 0%Z (-1)%Z.

(** [words.slice(from, to)] for [0 <= from] and [0 <= to]. *)
Definition slice {A : Type} (from to : Z) (l : list A) : list A :=
  firstn (Z.to_nat (to - from)) (skipn (Z.to_nat from) l).

Definition chunkSize : Z := 5.

Definition chunkStart (currentWordIndex : Z) : Z :=
  let currentChunk := (Z.max 0 currentWordIndex / chunkSize)%Z in
  (currentChunk * chunkSize)%Z.

Definition visibleWords (ws : list Word) (currentWordIndex : Z) : list Word :=
  let chunkEnd :=
    Z.min (chunkStart currentWordIndex + chunkSize) (Z.of_nat (List.length ws)) in
  slice (chunkStart currentWordIndex) chunkEnd ws.

(** How a word of the chunk is shown. *)
Inductive Highlight : Type :=
| Active
| Past
| Upcoming.

(** The classes given to the words of the chunk: [isActive], else [isPast],
    else neither. *)
Fixpoint highlightFrom (visible : list Word) (globalIndex currentWordIndex : Z)
  : list (Word * Highlight) :=
  match visible with
  | [] => []
  | w :: rest =>
      (w, if (globalIndex =? currentWordIndex)%Z then Active
          else if (globalIndex <? currentWordIndex)%Z then Past
          else Upcoming)
      :: highlightFrom rest (globalIndex + 1)%Z currentWordIndex
  end.

Definition rendered (ws : list Word) (currentTime startTimeOffset : Q)
  : list (Word * Highlight) :=
  let index := currentWordIndex ws currentTime startTimeOffset in
  highlightFrom (visibleWords ws index) (chunkStart index) index.

End Subtitles.


(** The time [t] falls within the word. *)
Definition spokenAt (t : Q) (w : Word) : Prop :=
  (start w <= t)%Q /\ (t <= end_ w)%Q.

(** What is known of the word the loop stops at: it is being spoken at [t],
    or it has ended before [t] and the next one, if any, has not begun. *)
Definition currentAt (t : Q) (rest : list Word) (k : nat) (w : Word) : Prop :=
  nth_error rest k = Some w
  /\ (spokenAt t w
      \/ ((end_ w < t)%Q
          /\ match nth_error rest (S k) with
             | Some nextWord => (t < start nextWord)%Q
             | None => True
             end)).

(** * Properties *)

Open Scope nat_scope.

(** ** Strings *)

Lemma prefix_refl (s : string) : prefix s s = true.
Proof.
  induction s as [|c r IH]; simpl; [reflexivity|].
  destruct (ascii_dec c c) as [_|N]; [exact IH | contradiction].
Qed.

Lemma includes_refl (s : string) : includes s s = true.
Proof.
  destruct s as [|c r]; [reflexivity|].
  unfold includes; fold includes. unfold startsWith.
  now rewrite prefix_refl.
Qed.








(** ** The threshold *)

(** On the counts the verification loop can produce, the binary64
    comparison [matchCount >= wordsToCheck * 0.6] is the exact one:
    [3 * wordsToCheck <= 5 * matchCount]. *)
Lemma reachesThreshold_exact (matchCount wordsToCheck : nat) :
  wordsToCheck <= 5 -> matchCount <= 5 ->
  reachesThreshold matchCount wordsToCheck
  = (3 * wordsToCheck <=? 5 * matchCount).
Proof.
  intros Hw Hm.
  destruct wordsToCheck as [|[|[|[|[|[|w]]]]]]; try lia;
    destruct matchCount as [|[|[|[|[|[|m]]]]]]; try lia;
    vm_compute; reflexivity.
Qed.

(** ** The verification loop *)

Lemma verifyStep_agreesAt ws quoteWords i j matchCount :
  verifyStep ws quoteWords i j matchCount
  = if agreesAt ws quoteWords i j then S matchCount else matchCount.
Proof.
  unfold verifyStep, agreesAt.
  destruct (nth_error ws (i + j)); [|reflexivity].
  destruct (nth_error quoteWords j); reflexivity.
Qed.

Lemma verifyLoop_count ws quoteWords i n :
  forall j matchCount,
    verifyLoop ws quoteWords i j n matchCount
    = matchCount
      + List.length (List.filter (agreesAt ws quoteWords i) (seq j n)).
Proof.
  induction n as [|n IH]; intros j matchCount; simpl.
  - lia.
  - rewrite IH, verifyStep_agreesAt.
    destruct (agreesAt ws quoteWords i j); simpl; lia.
Qed.

Lemma filter_length_le {A : Type} (p : A -> bool) (l : list A) :
  List.length (List.filter p l) <= List.length l.
Proof.
  induction l as [|x l IH]; simpl; [lia|].
  destruct (p x); simpl; lia.
Qed.

Lemma matchCountAt_count ws quoteWords i :
  matchCountAt ws quoteWords i
  = 1 + List.length
          (List.filter (agreesAt ws quoteWords i)
                       (seq 1 (Nat.min (List.length quoteWords) 5 - 1))).
Proof.
  unfold matchCountAt, Math_min. now rewrite verifyLoop_count.
Qed.

Lemma matchCountAt_bounds ws quoteWords i :
  quoteWords <> [] ->
  1 <= matchCountAt ws quoteWords i <= Nat.min (List.length quoteWords) 5.
Proof.
  intro Hq. rewrite matchCountAt_count.
  pose proof (filter_length_le (agreesAt ws quoteWords i)
                (seq 1 (Nat.min (List.length quoteWords) 5 - 1))) as Hle.
  rewrite length_seq in Hle.
  destruct quoteWords as [|q qs]; [contradiction|]. simpl List.length in *.
  lia.
Qed.

Lemma acceptsAt_exact ws quoteWords i :
  quoteWords <> [] ->
  acceptsAt ws quoteWords i
  = (3 * Nat.min (List.length quoteWords) 5 <=? 5 * matchCountAt ws quoteWords i).
Proof.
  intro Hq. unfold acceptsAt, Math_min.
  pose proof (matchCountAt_bounds ws quoteWords i Hq).
  apply reachesThreshold_exact; lia.
Qed.

(** ** The scan over the transcript words *)

Lemma scanWords_cons segment quoteWords firstQuoteWord w rest i :
  scanWords segment quoteWords firstQuoteWord (w :: rest) i
  = if isCandidate (clean (word w)) firstQuoteWord
       && acceptsAt (words (transcript segment)) quoteWords i
    then mkQuoteCheck true
           (Math_max 0 (start w - startTime (metadata segment)))
    else scanWords segment quoteWords firstQuoteWord rest (S i).
Proof.
  unfold acceptsAt, matchCountAt. simpl.
  destruct (isCandidate (clean (word w)) firstQuoteWord); [|reflexivity].
  now destruct (reachesThreshold _ _).
Qed.

Section Scan.

Variable segment : Segment.
Variables (firstQuoteWord : string) (restQuoteWords : list string).

Local Abbreviation ws := (words (transcript segment)).
Local Abbreviation quoteWords := (firstQuoteWord :: restQuoteWords).

Lemma candidateAcceptedAt_here pre w rest :
  ws = (pre ++ w :: rest)%list ->
  candidateAcceptedAt ws quoteWords (List.length pre)
  = isCandidate (clean (word w)) firstQuoteWord
    && acceptsAt ws quoteWords (List.length pre).
Proof.
  intro E. unfold candidateAcceptedAt.
  rewrite E at 1. rewrite nth_error_app2 by lia.
  now rewrite Nat.sub_diag.
Qed.

Lemma scanWords_first rest :
  forall pre k w,
    ws = (pre ++ rest)%list ->
    nth_error rest k = Some w ->
    candidateAcceptedAt ws quoteWords (List.length pre + k) = true ->
    (forall j, j < k ->
               candidateAcceptedAt ws quoteWords (List.length pre + j) = false) ->
    scanWords segment quoteWords firstQuoteWord rest (List.length pre)
    = mkQuoteCheck true
        (Math_max 0 (start w - startTime (metadata segment))).
Proof.
  induction rest as [|x rest IH]; intros pre k w E Hk Hacc Hfirst.
  - destruct k; discriminate Hk.
  - rewrite scanWords_cons.
    rewrite <- (candidateAcceptedAt_here pre x rest E).
    destruct k as [|k].
    + injection Hk as ->. rewrite Nat.add_0_r in Hacc. now rewrite Hacc.
    + rewrite <- (Nat.add_0_r (List.length pre)) at 1.
      rewrite (Hfirst 0) by lia.
      replace (S (List.length pre)) with (List.length (pre ++ [x])%list)
        by (rewrite length_app; simpl; lia).
      apply (IH (pre ++ [x])%list k w).
      * now rewrite <- app_assoc.
      * exact Hk.
      * rewrite length_app. simpl.
        now replace (List.length pre + 1 + k) with (List.length pre + S k) by lia.
      * intros j Hj. rewrite length_app. simpl.
        replace (List.length pre + 1 + j) with (List.length pre + S j) by lia.
        apply Hfirst. lia.
Qed.

Lemma scanWords_found rest :
  forall pre,
    ws = (pre ++ rest)%list ->
    found (scanWords segment quoteWords firstQuoteWord rest (List.length pre))
    = true ->
    exists k, candidateAcceptedAt ws quoteWords (List.length pre + k) = true.
Proof.
  induction rest as [|x rest IH]; intros pre E Hf.
  - discriminate Hf.
  - rewrite scanWords_cons in Hf.
    rewrite <- (candidateAcceptedAt_here pre x rest E) in Hf.
    destruct (candidateAcceptedAt ws quoteWords (List.length pre)) eqn:Hc.
    + exists 0. now rewrite Nat.add_0_r.
    + replace (S (List.length pre)) with (List.length (pre ++ [x])%list) in Hf
        by (rewrite length_app; simpl; lia).
      destruct (IH (pre ++ [x])%list) as [k Hk];
        [now rewrite <- app_assoc | exact Hf |].
      exists (S k). rewrite length_app in Hk. simpl in Hk.
      now replace (List.length pre + S k) with (List.length pre + 1 + k) by lia.
Qed.

End Scan.

Lemma candidateAcceptedAt_lt ws quoteWords i :
  candidateAcceptedAt ws quoteWords i = true -> i < List.length ws.
Proof.
  unfold candidateAcceptedAt. intro H.
  apply nth_error_Some. destruct (nth_error ws i); [discriminate | discriminate H].
Qed.

(** The least index below [n] at which [p] holds, if [p] holds at [n]. *)
Lemma least_index (p : nat -> bool) (n : nat) :
  p n = true ->
  exists m, m <= n /\ p m = true /\ forall j, j < m -> p j = false.
Proof.
  induction n as [n IH] using (well_founded_induction lt_wf). intro Hn.
  destruct (existsb p (seq 0 n)) eqn:He.
  - apply existsb_exists in He as (m & Hin & Hm).
    apply in_seq in Hin.
    destruct (IH m) as (m' & Hle & Hp & Hmin); [lia | exact Hm |].
    exists m'. repeat split; [lia | exact Hp | exact Hmin].
  - exists n. repeat split; [lia | exact Hn |].
    intros j Hj. destruct (p j) eqn:Hpj; [|reflexivity].
    rewrite <- He. symmetry. apply existsb_exists.
    exists j. split; [apply in_seq; lia | exact Hpj].
Qed.

Lemma findQuoteInSegment_words segment quote w ws' :
  words (transcript segment) = w :: ws' ->
  findQuoteInSegment segment quote
  = match quoteWordsOf quote with
    | [] => mkQuoteCheck false 0
    | firstQuoteWord :: _ =>
        scanWords segment (quoteWordsOf quote) firstQuoteWord
                  (words (transcript segment)) 0
    end.
Proof.
  intro E. unfold findQuoteInSegment. now rewrite E.
Qed.

(** The locator finds the quote exactly when some index is an accepted
    candidate. *)
Lemma findQuoteInSegment_found_iff segment quote :
  words (transcript segment) <> [] ->
  found (findQuoteInSegment segment quote) = true
  <-> exists i,
      candidateAcceptedAt (words (transcript segment)) (quoteWordsOf quote) i
      = true.
Proof.
  intro Hne.
  destruct (words (transcript segment)) as [|w ws'] eqn:E; [contradiction|].
  rewrite (findQuoteInSegment_words segment quote w ws' E).
  destruct (quoteWordsOf quote) as [|fq rq] eqn:Eq.
  - split; [discriminate|].
    intros [i Hi]. unfold candidateAcceptedAt in Hi.
    destruct (nth_error (w :: ws') i); discriminate Hi.
  - rewrite <- E. split.
    + intro Hf.
      destruct (scanWords_found segment fq rq (words (transcript segment)) [])
        as [k Hk]; [reflexivity | exact Hf |].
      now exists k.
    + intros [i Hi].
      destruct (least_index _ i Hi) as (m & _ & Hm & Hmin).
      pose proof (candidateAcceptedAt_lt _ _ _ Hm) as Hlt.
      destruct (nth_error (words (transcript segment)) m) as [wm|] eqn:Em;
        [|apply nth_error_None in Em; lia].
      pose proof (scanWords_first segment fq rq (words (transcript segment))
                    [] m wm eq_refl Em Hm Hmin) as Hs.
      change (List.length (@nil Word)) with 0 in Hs.
      now rewrite Hs.
Qed.

(** ** The quote locator *)



(** C3, as stated, fails: the transcript word "he" is contained in the
    first quote-word "hello", yet index 0 is no candidate and the quote is
    not found, although the threshold alone would accept it. *)
Lemma candidate_rule_both_directions_fails :
  ~ candidateRuleBothDirections Corpus.segHe "hello"
  /\ acceptsAt (words (transcript Corpus.segHe)) (quoteWordsOf "hello") 0 = true
  /\ found (findQuoteInSegment Corpus.segHe "hello") = false.
Proof.
  split; [|split; reflexivity].
  intro H.
  destruct (H "hello" [] 0 (Corpus.spoken "he" 0) eq_refl eq_refl) as [_ Hback].
  assert (isCandidate (clean "he") "hello" = true) as Habs
    by (apply Hback; right; right; reflexivity).
  discriminate Habs.
Qed.

(** C3, amended. An index is a potential match start exactly when the
    normalized transcript word equals the first quote-word or contains it
    (the converse containment does not count); the quote is found exactly
    when some index is such a start and passes the threshold. *)
Theorem candidate_rule_one_direction segment quote firstQuoteWord restQuoteWords :
  words (transcript segment) <> [] ->
  quoteWordsOf quote = firstQuoteWord :: restQuoteWords ->
  (forall i w,
      nth_error (words (transcript segment)) i = Some w ->
      (isCandidate (clean (word w)) firstQuoteWord = true
       <-> (clean (word w) = firstQuoteWord
            \/ includes (clean (word w)) firstQuoteWord = true)))
  /\ (found (findQuoteInSegment segment quote) = true
      <-> exists i w,
          nth_error (words (transcript segment)) i = Some w
          /\ (clean (word w) = firstQuoteWord
              \/ includes (clean (word w)) firstQuoteWord = true)
          /\ acceptsAt (words (transcript segment)) (quoteWordsOf quote) i
             = true).
Proof.
  intros Hne Eq.
  assert (forall cw,
             isCandidate cw firstQuoteWord = true
             <-> (cw = firstQuoteWord \/ includes cw firstQuoteWord = true)) as Hrule.
  { intro cw. unfold isCandidate. rewrite orb_true_iff, String.eqb_eq. tauto. }
  split; [intros i w _; apply Hrule|].
  rewrite (findQuoteInSegment_found_iff segment quote Hne). rewrite Eq.
  split.
  - intros [i Hi]. unfold candidateAcceptedAt in Hi.
    destruct (nth_error (words (transcript segment)) i) as [w|] eqn:Ew;
      [|discriminate Hi].
    apply andb_true_iff in Hi as [Hc Ha].
    exists i, w. split; [exact Ew|]. split; [now apply Hrule | exact Ha].
  - intros (i & w & Ew & Hc & Ha). exists i.
    unfold candidateAcceptedAt. rewrite Ew.
    apply andb_true_iff. split; [now apply Hrule | exact Ha].
Qed.

Lemma candidate_rule_one_direction_witness :
  (isCandidate (clean (word (Corpus.spoken "hello" 125))) "hello" = true
   <-> (clean (word (Corpus.spoken "hello" 125)) = "hello"
        \/ includes (clean (word (Corpus.spoken "hello" 125))) "hello" = true))
  /\ (found (findQuoteInSegment Corpus.segA "hello world") = true
      <-> exists i w,
          nth_error (words (transcript Corpus.segA)) i = Some w
          /\ (clean (word w) = "hello"
              \/ includes (clean (word w)) "hello" = true)
          /\ acceptsAt (words (transcript Corpus.segA))
               (quoteWordsOf "hello world") i
             = true).
Proof.
  assert (words (transcript Corpus.segA) <> []) as Hne by discriminate.
  destruct (candidate_rule_one_direction Corpus.segA "hello world"
              "hello" ["world"] Hne eq_refl) as [Hrule Hfound].
  split; [exact (Hrule 2 (Corpus.spoken "hello" 125) eq_refl) | exact Hfound].
Defined.

(** C4. At a candidate start [i], with
    [wordsToCheck = min(quoteWords.length, 5)], the verification loop counts
    1 for the anchor plus the number of [j] in [1 .. wordsToCheck - 1] whose
    quote-word [quoteWords[j]] and transcript word [words[i + j]] are equal
    or contain one another; the scan returns at [i] when that count is at
    least 60% of [wordsToCheck], and goes on to [i + 1] when it is not. *)
Theorem acceptance_rule segment quoteWords firstQuoteWord w rest i :
  quoteWords <> [] ->
  isCandidate (clean (word w)) firstQuoteWord = true ->
  let ws := words (transcript segment) in
  let wordsToCheck := Nat.min (List.length quoteWords) 5 in
  let agree (j : nat) :=
    match nth_error ws (i + j), nth_error quoteWords j with
    | Some next, Some q =>
        let t := clean (word next) in
        (t =? q)%string || includes t q || includes q t
    | _, _ => false
    end in
  let matched := 1 + List.length (List.filter agree (seq 1 (wordsToCheck - 1))) in
  verifyLoop ws quoteWords i 1 (wordsToCheck - 1) 1 = matched
  /\ (((60 # 100) * inject_Z (Z.of_nat wordsToCheck)
       <= inject_Z (Z.of_nat matched))%Q ->
      scanWords segment quoteWords firstQuoteWord (w :: rest) i
      = mkQuoteCheck true
          (Math_max 0 (start w - startTime (metadata segment))))
  /\ (~ ((60 # 100) * inject_Z (Z.of_nat wordsToCheck)
         <= inject_Z (Z.of_nat matched))%Q ->
      scanWords segment quoteWords firstQuoteWord (w :: rest) i
      = scanWords segment quoteWords firstQuoteWord rest (S i)).
Proof.
  intros Hq Hc ws wordsToCheck agree matched.
  assert (matchCountAt ws quoteWords i = matched) as Hm
    by apply matchCountAt_count.
  assert (acceptsAt ws quoteWords i = true
          <-> ((60 # 100) * inject_Z (Z.of_nat wordsToCheck)
               <= inject_Z (Z.of_nat matched))%Q) as Hacc.
  { rewrite (acceptsAt_exact ws quoteWords i Hq), Hm. fold wordsToCheck.
    rewrite Nat.leb_le.
    unfold Qle, Qmult, inject_Z. cbn [Qnum Qden].
    change (Z.pos (100 * 1)) with 100%Z.
    clearbody matched. clearbody wordsToCheck. lia. }
  split; [exact Hm|].
  rewrite scanWords_cons, Hc. fold ws. cbn [andb].
  split; intro H.
  - apply Hacc in H. now rewrite H.
  - destruct (acceptsAt ws quoteWords i) eqn:E; [|reflexivity].
    exfalso. apply H, Hacc. reflexivity.
Qed.

Lemma acceptance_rule_witness :
  (verifyLoop (words (transcript Corpus.segA))
     ["hello"; "world"; "old"; "friend"] 2 1 3 1 = 3
   /\ scanWords Corpus.segA ["hello"; "world"; "old"; "friend"] "hello"
        (Corpus.spoken "hello" 125
         :: [Corpus.spoken "world," 126; Corpus.spoken "my" 130;
             Corpus.spoken "friend" 131]) 2
      = mkQuoteCheck true
          (Math_max 0 (start (Corpus.spoken "hello" 125)
                       - startTime (metadata Corpus.segA))))
  /\ (verifyLoop (words (transcript Corpus.segA))
        ["hello"; "old"; "dear"] 2 1 2 1 = 1
      /\ scanWords Corpus.segA ["hello"; "old"; "dear"] "hello"
           (Corpus.spoken "hello" 125
            :: [Corpus.spoken "world," 126; Corpus.spoken "my" 130;
                Corpus.spoken "friend" 131]) 2
         = scanWords Corpus.segA ["hello"; "old"; "dear"] "hello"
             [Corpus.spoken "world," 126; Corpus.spoken "my" 130;
              Corpus.spoken "friend" 131] 3).
Proof.
  assert (["hello"; "world"; "old"; "friend"] <> []) as Hq by discriminate.
  assert (["hello"; "old"; "dear"] <> []) as Hq' by discriminate.
  destruct (acceptance_rule Corpus.segA ["hello"; "world"; "old"; "friend"]
              "hello" (Corpus.spoken "hello" 125)
              [Corpus.spoken "world," 126; Corpus.spoken "my" 130;
               Corpus.spoken "friend" 131] 2 Hq eq_refl) as (Hm & Hyes & _).
  destruct (acceptance_rule Corpus.segA ["hello"; "old"; "dear"]
              "hello" (Corpus.spoken "hello" 125)
              [Corpus.spoken "world," 126; Corpus.spoken "my" 130;
               Corpus.spoken "friend" 131] 2 Hq' eq_refl) as (Hm' & _ & Hno).
  split; split; [exact Hm | | exact Hm' |].
  - apply Hyes. vm_compute. discriminate.
  - apply Hno. vm_compute. intro H. apply H. reflexivity.
Defined.




(** ** The segment map built by the handler *)

Lemma map_set_In m k v :
  forall k' v', In (k', v') (map_set m k v) ->
                (k' = k /\ v' = v) \/ In (k', v') m.
Proof.
  induction m as [|[k0 v0] r IH]; intros k' v' H; simpl in *.
  - destruct H as [H|[]]. injection H as <- <-. now left.
  - destruct (k0 =? k)%string.
    + destruct H as [H|H]; [injection H as <- <-; now left | right; now right].
    + destruct H as [H|H]; [right; now left|].
      destruct (IH _ _ H) as [Heq|Hin]; [now left | right; now right].
Qed.

Lemma map_set_keys_In m k v k' :
  In k' (keys (map_set m k v)) -> k' = k \/ In k' (keys m).
Proof.
  unfold keys. intro H. apply in_map_iff in H as ([k1 v1] & <- & Hin).
  destruct (map_set_In m k v k1 v1 Hin) as [[-> _]|Hm]; [now left|].
  right. apply in_map_iff. now exists (k1, v1).
Qed.

Lemma map_set_NoDup m k v :
  NoDup (keys m) -> NoDup (keys (map_set m k v)).
Proof.
  induction m as [|[k0 v0] r IH]; intro H; simpl.
  - constructor; [intros [] | constructor].
  - inversion H as [|? ? Hnotin Hr]; subst.
    destruct (k0 =? k)%string eqn:E; simpl.
    + apply String.eqb_eq in E as <-. now constructor.
    + constructor; [|now apply IH].
      intro Hin. apply map_set_keys_In in Hin as [->|Hin];
        [now rewrite String.eqb_refl in E | contradiction].
Qed.

Lemma map_set_keyed m segment :
  keyedByAudioFile m ->
  keyedByAudioFile (map_set m (audioFile segment) segment).
Proof.
  intros [Hnd Hk]. split; [now apply map_set_NoDup|].
  intros k v Hin.
  destruct (map_set_In _ _ _ _ _ Hin) as [[-> ->]|Hm];
    [reflexivity | now apply Hk].
Qed.

Lemma buildSegmentMap_keyed manifest :
  keyedByAudioFile (buildSegmentMap manifest).
Proof.
  unfold buildSegmentMap.
  assert (keyedByAudioFile []) as H0
    by (split; [constructor | intros ? ? []]).
  revert H0. generalize (@nil (string * Segment)).
  induction (sessions manifest) as [|session rest IH]; intros m Hm; simpl;
    [exact Hm|].
  apply IH. revert m Hm.
  induction (segments session) as [|segment segs IHs]; intros m Hm; simpl;
    [exact Hm|].
  apply IHs. now apply map_set_keyed.
Qed.

Lemma map_get_In m k v :
  NoDup (keys m) -> In (k, v) m -> map_get m k = Some v.
Proof.
  induction m as [|[k0 v0] r IH]; intros Hnd Hin; simpl in *; [contradiction|].
  inversion Hnd as [|? ? Hnotin Hr]; subst.
  destruct Hin as [Heq|Hin].
  - injection Heq as -> ->. now rewrite String.eqb_refl.
  - destruct (k0 =? k)%string eqn:E; [|now apply IH].
    apply String.eqb_eq in E as ->.
    exfalso. apply Hnotin. unfold keys. apply in_map_iff. now exists (k, v).
Qed.

Lemma map_get_Some_values m k v :
  map_get m k = Some v -> In v (map_values m).
Proof.
  induction m as [|[k0 v0] r IH]; simpl; [discriminate|].
  destruct (k0 =? k)%string.
  - intro H. injection H as ->. now left.
  - intro H. right. now apply IH.
Qed.

Lemma keyed_get_own m segment :
  keyedByAudioFile m -> In segment (map_values m) ->
  map_get m (audioFile segment) = Some segment.
Proof.
  intros [Hnd Hk] Hin. unfold map_values in Hin.
  apply in_map_iff in Hin as ([k v] & Hv & Hin). simpl in Hv. subst v.
  rewrite <- (Hk _ _ Hin). now apply map_get_In.
Qed.

(** ** Corpus search *)

Lemma findSegmentAmong_Some segs quote segment ts :
  findSegmentAmong segs quote = Some (segment, ts) ->
  In segment segs
  /\ found (findQuoteInSegment segment quote) = true
  /\ ts = timestamp (findQuoteInSegment segment quote).
Proof.
  induction segs as [|s rest IH]; simpl; [discriminate|].
  destruct (found (findQuoteInSegment s quote)) eqn:Hf.
  - intro H. injection H as <- <-. repeat split; [now left | exact Hf].
  - intro H. destruct (IH H) as (Hin & Hfound & Hts).
    repeat split; [now right | exact Hfound | exact Hts].
Qed.

Lemma findSegmentAmong_first pre segment post quote :
  (forall s, In s pre -> found (findQuoteInSegment s quote) = false) ->
  found (findQuoteInSegment segment quote) = true ->
  findSegmentAmong (pre ++ segment :: post) quote
  = Some (segment, timestamp (findQuoteInSegment segment quote)).
Proof.
  intros Hpre Hf.
  induction pre as [|s pre IH]; simpl.
  - now rewrite Hf.
  - rewrite (Hpre s) by now left. apply IH.
    intros s' Hs'. apply Hpre. now right.
Qed.

Lemma findSegmentAmong_None segs quote :
  (forall s, In s segs -> found (findQuoteInSegment s quote) = false) ->
  findSegmentAmong segs quote = None.
Proof.
  induction segs as [|s rest IH]; intro H; simpl; [reflexivity|].
  rewrite (H s) by now left. apply IH.
  intros s' Hs'. apply H. now right.
Qed.

(** ** The validation loop *)

Lemma validateMatches_app segmentMap ms1 ms2 :
  validateMatches segmentMap (ms1 ++ ms2)
  = fold_left (validateMatch segmentMap) ms2 (validateMatches segmentMap ms1).
Proof. unfold validateMatches. apply fold_left_app. Qed.

Lemma pushCorrected_verified segmentMap quote results :
  keyedByAudioFile segmentMap ->
  Forall (verified segmentMap) results ->
  Forall (verified segmentMap) (pushCorrected segmentMap quote results).
Proof.
  intros Hk Hres. unfold pushCorrected, findSegmentForQuote.
  destruct (findSegmentAmong (map_values segmentMap) quote) as [[segment ts]|] eqn:E;
    [|exact Hres].
  apply findSegmentAmong_Some in E as (Hin & Hf & _).
  apply Forall_app. split; [exact Hres|].
  constructor; [|constructor].
  exists segment. simpl. split; [now apply keyed_get_own | exact Hf].
Qed.

Lemma validateMatch_verified segmentMap results m :
  keyedByAudioFile segmentMap ->
  Forall (verified segmentMap) results ->
  Forall (verified segmentMap) (validateMatch segmentMap results m).
Proof.
  intros Hk Hres. unfold validateMatch.
  destruct (map_get segmentMap (m_audioFile m)) as [claimedSegment|] eqn:Eg;
    [|now apply pushCorrected_verified].
  destruct (found (findQuoteInSegment claimedSegment (m_quote m))) eqn:Hf;
    [|now apply pushCorrected_verified].
  apply Forall_app. split; [exact Hres|].
  constructor; [|constructor].
  exists claimedSegment. simpl. now split.
Qed.

Lemma validateMatches_verified segmentMap geminiMatches :
  keyedByAudioFile segmentMap ->
  Forall (verified segmentMap) (validateMatches segmentMap geminiMatches).
Proof.
  intro Hk. unfold validateMatches.
  assert (Forall (verified segmentMap) []) as H0 by constructor.
  revert H0. generalize (@nil SearchResult).
  induction geminiMatches as [|m rest IH]; intros results Hres; simpl;
    [exact Hres|].
  apply IH. now apply validateMatch_verified.
Qed.

Lemma filterFrom_incl {A : Type} (f : A -> nat -> list A -> bool) self rest :
  forall index x, In x (filterFrom f self rest index) -> In x rest.
Proof.
  induction rest as [|y rest IH]; intros index x H; simpl in *; [exact H|].
  destruct (f y index self).
  - destruct H as [->|H]; [now left | right; now apply (IH (S index))].
  - right. now apply (IH (S index)).
Qed.

Lemma uniqueResults_incl results r :
  In r (uniqueResults results) -> In r results.
Proof. apply filterFrom_incl. Qed.

Lemma handler_of_matches JSON_parse manifest text_ :
  handler JSON_parse manifest text_
  = match validateMatchesJs (buildSegmentMap manifest) []
            (parseMatches JSON_parse (cleanResponse (orEmptyArray text_))) with
    | inr results => mkResponse 200 (Results (uniqueResults results))
    | inl _ => mkResponse 500 (Error "Failed to search transcripts")
    end.
Proof. reflexivity. Qed.

(** The same at run time, whatever the elements of the array are. *)
Lemma findSegmentAmongJs_Some segs quote segment ts q :
  findSegmentAmongJs segs quote = inr (Some (segment, ts, q)) ->
  In segment segs /\ found (findQuoteInSegment segment q) = true.
Proof.
  induction segs as [|s rest IH]; simpl; [discriminate|].
  destruct quote; simpl; try discriminate.
  destruct (found (findQuoteInSegment s s0)) eqn:Hf.
  - intro H. injection H as <- <- <-. split; [now left | exact Hf].
  - intro H. destruct (IH H) as [Hin Hfound]. split; [now right | exact Hfound].
Qed.

Lemma pushCorrectedJs_verified segmentMap quote results results' :
  keyedByAudioFile segmentMap ->
  Forall (verified segmentMap) results ->
  pushCorrectedJs segmentMap quote results = inr results' ->
  Forall (verified segmentMap) results'.
Proof.
  intros Hk Hres. unfold pushCorrectedJs, findSegmentForQuoteJs.
  destruct (findSegmentAmongJs (map_values segmentMap) quote)
    as [e|[[[segment ts] q]|]] eqn:E; simpl; [discriminate | |].
  - intro H. injection H as <-.
    apply findSegmentAmongJs_Some in E as [Hin Hf].
    apply Forall_app. split; [exact Hres|].
    constructor; [|constructor].
    exists segment. simpl. split; [now apply keyed_get_own | exact Hf].
  - intro H. now injection H as <-.
Qed.

Lemma validateMatchJs_verified segmentMap results m results' :
  keyedByAudioFile segmentMap ->
  Forall (verified segmentMap) results ->
  validateMatchJs segmentMap results m = inr results' ->
  Forall (verified segmentMap) results'.
Proof.
  intros Hk Hres. unfold validateMatchJs.
  destruct (getProperty m "audioFile") as [e|key]; simpl; [discriminate|].
  destruct (getProperty m "quote") as [e|quote] eqn:Eq.
  { destruct key; simpl; try discriminate.
    destruct (map_get segmentMap s); discriminate. }
  assert (pushCorrectedJs segmentMap quote results = inr results' ->
          Forall (verified segmentMap) results') as Hpush
    by (now apply pushCorrectedJs_verified).
  destruct key as [| | | |k| |]; simpl; try exact Hpush.
  destruct (map_get segmentMap k) as [claimedSegment|] eqn:Eg;
    simpl; [|exact Hpush].
  destruct quote as [| | | |q| |]; simpl; try discriminate.
  destruct (found (findQuoteInSegment claimedSegment q)) eqn:Hf;
    [|exact Hpush].
  intro H. injection H as <-.
  apply Forall_app. split; [exact Hres|].
  constructor; [|constructor].
  exists claimedSegment. simpl. now split.
Qed.

Lemma validateMatchesJs_verified segmentMap geminiMatches :
  keyedByAudioFile segmentMap ->
  forall results results',
    Forall (verified segmentMap) results ->
    validateMatchesJs segmentMap results geminiMatches = inr results' ->
    Forall (verified segmentMap) results'.
Proof.
  intro Hk.
  induction geminiMatches as [|m rest IH]; intros results results' Hres; simpl.
  - intro H. now injection H as <-.
  - destruct (validateMatchJs segmentMap results m) as [e|results1] eqn:E;
      simpl; [discriminate|].
    apply IH. exact (validateMatchJs_verified _ _ _ _ Hk Hres E).
Qed.

(** C1. Whatever the manifest and the matches of the model, every result of
    the loop that is left by the removal of duplicates names a segment of
    the map in which [findQuoteInSegment] finds its quote; and so does every
    result of a 200 response of the handler, whatever [JSON.parse] returned
    for the text of the model. *)
Theorem results_are_verified manifest geminiMatches r :
  let segmentMap := buildSegmentMap manifest in
  (In r (uniqueResults (validateMatches segmentMap geminiMatches)) ->
   exists segment,
     map_get segmentMap (r_audioFile r) = Some segment
     /\ found (findQuoteInSegment segment (r_quote r)) = true)
  /\ (forall JSON_parse text_ results,
         handler JSON_parse manifest text_ = mkResponse 200 (Results results) ->
         In r results ->
         exists segment,
           map_get segmentMap (r_audioFile r) = Some segment
           /\ found (findQuoteInSegment segment (r_quote r)) = true).
Proof.
  intros segmentMap. split.
  - intro Hin. apply uniqueResults_incl in Hin.
    pose proof (validateMatches_verified segmentMap geminiMatches
                  (buildSegmentMap_keyed manifest)) as Hall.
    rewrite Forall_forall in Hall. exact (Hall r Hin).
  - intros JSON_parse text_ results Hresp Hin.
    rewrite handler_of_matches in Hresp. fold segmentMap in Hresp.
    destruct (validateMatchesJs segmentMap []
                (parseMatches JSON_parse (cleanResponse (orEmptyArray text_))))
      as [e|pushed] eqn:E; [discriminate Hresp|].
    injection Hresp as <-. apply uniqueResults_incl in Hin.
    pose proof (validateMatchesJs_verified segmentMap _
                  (buildSegmentMap_keyed manifest) [] pushed
                  (Forall_nil _) E) as Hall.
    rewrite Forall_forall in Hall. exact (Hall r Hin).
Qed.

Lemma results_are_verified_witness :
  (exists segment,
      map_get (buildSegmentMap Corpus.manifest) "b.mp3" = Some segment
      /\ found (findQuoteInSegment segment "good morning") = true)
  /\ (handler (Corpus.parseAs (mkGeminiMatch "a.mp3" "good morning" "childhood"))
         Corpus.manifest (Some "[...]")
       = mkResponse 200
           (Results [mkSearchResult "b.mp3" 3 "school" "good morning"])
       /\ exists segment,
           map_get (buildSegmentMap Corpus.manifest) "b.mp3" = Some segment
           /\ found (findQuoteInSegment segment "good morning") = true).
Proof.
  destruct (results_are_verified Corpus.manifest
              [mkGeminiMatch "a.mp3" "good morning" "childhood"]
              (mkSearchResult "b.mp3" 3 "school" "good morning"))
    as [Hloop Hhandler].
  split.
  - apply Hloop. vm_compute. left. reflexivity.
  - split; [reflexivity|].
    apply (Hhandler
             (Corpus.parseAs (mkGeminiMatch "a.mp3" "good morning" "childhood"))
             (Some "[...]")
             [mkSearchResult "b.mp3" 3 "school" "good morning"]).
    + reflexivity.
    + left. reflexivity.
Defined.

(** C6. A match whose [audioFile] is not a key of the map, or whose quote is
    not found in the segment it names, and whose quote is found in some
    segment, pushes one result that carries the [audioFile] and the subject
    of the first segment, in the order of [segmentMap.values()], in which
    the quote is found, with the time found there. *)
Theorem misattributed_match_is_corrected
    segmentMap geminiMatches m pre segment post :
  map_values segmentMap = (pre ++ segment :: post)%list ->
  (forall s, In s pre -> found (findQuoteInSegment s (m_quote m)) = false) ->
  found (findQuoteInSegment segment (m_quote m)) = true ->
  (map_get segmentMap (m_audioFile m) = None
   \/ exists claimedSegment,
       map_get segmentMap (m_audioFile m) = Some claimedSegment
       /\ found (findQuoteInSegment claimedSegment (m_quote m)) = false) ->
  validateMatches segmentMap (geminiMatches ++ [m])
  = (validateMatches segmentMap geminiMatches
     ++ [mkSearchResult (audioFile segment)
           (timestamp (findQuoteInSegment segment (m_quote m)))
           (subject (metadata segment)) (m_quote m)])%list.
Proof.
  intros Hvals Hpre Hf Hclaimed.
  rewrite validateMatches_app. simpl.
  assert (forall results,
             pushCorrected segmentMap (m_quote m) results
             = (results
                ++ [mkSearchResult (audioFile segment)
                      (timestamp (findQuoteInSegment segment (m_quote m)))
                      (subject (metadata segment)) (m_quote m)])%list) as Hpush.
  { intro results. unfold pushCorrected, findSegmentForQuote.
    now rewrite Hvals, (findSegmentAmong_first pre segment post _ Hpre Hf). }
  unfold validateMatch.
  destruct Hclaimed as [Hnone|(claimedSegment & Hsome & Hnot)].
  - rewrite Hnone. apply Hpush.
  - rewrite Hsome, Hnot. apply Hpush.
Qed.

Lemma misattributed_match_is_corrected_witness :
  validateMatches (buildSegmentMap Corpus.manifest)
    ([mkGeminiMatch "a.mp3" "he said" "childhood"]
     ++ [mkGeminiMatch "missing.mp3" "good morning" "travel"])
  = (validateMatches (buildSegmentMap Corpus.manifest)
       [mkGeminiMatch "a.mp3" "he said" "childhood"]
     ++ [mkSearchResult "b.mp3"
           (timestamp (findQuoteInSegment Corpus.segB "good morning"))
           "school" "good morning"])%list.
Proof.
  apply (misattributed_match_is_corrected (buildSegmentMap Corpus.manifest)
           [mkGeminiMatch "a.mp3" "he said" "childhood"]
           (mkGeminiMatch "missing.mp3" "good morning" "travel")
           [Corpus.segA] Corpus.segB [Corpus.segC]).
  - reflexivity.
  - intros s [<-|[]]. reflexivity.
  - reflexivity.
  - left. reflexivity.
Defined.

(** ** The loop at run time, on well-typed matches *)

Lemma findSegmentAmongJs_string segs quote :
  findSegmentAmongJs segs (JsString quote)
  = ret (option_map (fun '(segment, ts) => (segment, ts, quote))
                    (findSegmentAmong segs quote)).
Proof.
  induction segs as [|s rest IH]; simpl; [reflexivity|].
  destruct (found (findQuoteInSegment s quote)); [reflexivity | exact IH].
Qed.

Lemma pushCorrectedJs_string segmentMap quote results :
  pushCorrectedJs segmentMap (JsString quote) results
  = ret (pushCorrected segmentMap quote results).
Proof.
  unfold pushCorrectedJs, pushCorrected, findSegmentForQuoteJs,
    findSegmentForQuote.
  rewrite findSegmentAmongJs_string. simpl.
  destruct (findSegmentAmong (map_values segmentMap) quote) as [[segment ts]|];
    reflexivity.
Qed.

Lemma getProperty_audioFile m :
  getProperty (jsOfMatch m) "audioFile" = ret (JsString (m_audioFile m)).
Proof. reflexivity. Qed.

Lemma getProperty_quote m :
  getProperty (jsOfMatch m) "quote" = ret (JsString (m_quote m)).
Proof. reflexivity. Qed.

Lemma validateMatchJs_typed segmentMap results m :
  validateMatchJs segmentMap results (jsOfMatch m)
  = ret (validateMatch segmentMap results m).
Proof.
  unfold validateMatchJs, validateMatch.
  rewrite getProperty_audioFile. cbn [bind ret map_get_value].
  destruct (map_get segmentMap (m_audioFile m)) as [claimedSegment|];
    rewrite getProperty_quote; cbn [bind ret findQuoteInSegmentJs].
  - destruct (found (findQuoteInSegment claimedSegment (m_quote m)));
      [reflexivity | apply pushCorrectedJs_string].
  - apply pushCorrectedJs_string.
Qed.

(** On an array of well-typed matches the loop throws nothing and computes
    [validateMatches]. *)
Lemma validateMatchesJs_typed segmentMap geminiMatches :
  forall results,
    validateMatchesJs segmentMap results (List.map jsOfMatch geminiMatches)
    = ret (fold_left (validateMatch segmentMap) geminiMatches results).
Proof.
  induction geminiMatches as [|m rest IH]; intro results; simpl;
    [reflexivity|].
  rewrite validateMatchJs_typed. simpl. apply IH.
Qed.

(** C8. A match whose quote is found in no segment of the map pushes no
    result and throws nothing: the loop over the whole array completes, and
    its results are those of the array without that match. *)
Theorem unlocatable_match_is_dropped segmentMap before m after :
  (forall s, In s (map_values segmentMap) ->
             found (findQuoteInSegment s (m_quote m)) = false) ->
  (forall results, validateMatch segmentMap results m = results)
  /\ validateMatches segmentMap (before ++ m :: after)
     = validateMatches segmentMap (before ++ after)
  /\ validateMatchesJs segmentMap []
       (List.map jsOfMatch (before ++ m :: after))
     = inr (validateMatches segmentMap (before ++ after)).
Proof.
  intro Hnone.
  assert (forall results, validateMatch segmentMap results m = results) as Hdrop.
  { intro results. unfold validateMatch.
    assert (pushCorrected segmentMap (m_quote m) results = results) as Hpush.
    { unfold pushCorrected, findSegmentForQuote.
      now rewrite (findSegmentAmong_None _ _ Hnone). }
    destruct (map_get segmentMap (m_audioFile m)) as [claimedSegment|] eqn:Eg;
      [|exact Hpush].
    now rewrite (Hnone claimedSegment (map_get_Some_values _ _ _ Eg)). }
  assert (validateMatches segmentMap (before ++ m :: after)
          = validateMatches segmentMap (before ++ after)) as Hsame.
  { rewrite !validateMatches_app. simpl. now rewrite Hdrop. }
  repeat split; [exact Hdrop | exact Hsame |].
  rewrite validateMatchesJs_typed. unfold ret. f_equal. exact Hsame.
Qed.

Lemma unlocatable_match_is_dropped_witness :
  validateMatchesJs (buildSegmentMap Corpus.manifest) []
    (List.map jsOfMatch
       ([mkGeminiMatch "a.mp3" "he said" "childhood"]
        ++ mkGeminiMatch "b.mp3" "never said" "school"
        :: [mkGeminiMatch "b.mp3" "good morning" "school"]))
  = inr (validateMatches (buildSegmentMap Corpus.manifest)
           ([mkGeminiMatch "a.mp3" "he said" "childhood"]
            ++ [mkGeminiMatch "b.mp3" "good morning" "school"])).
Proof.
  apply (unlocatable_match_is_dropped (buildSegmentMap Corpus.manifest)
           [mkGeminiMatch "a.mp3" "he said" "childhood"]
           (mkGeminiMatch "b.mp3" "never said" "school")
           [mkGeminiMatch "b.mp3" "good morning" "school"]).
  intros s [<-|[<-|[<-|[]]]]; reflexivity.
Defined.

(** ** Removal of duplicates *)

Lemma Qltb_lt (a b : Q) : Qltb a b = true <-> (a < b)%Q.
Proof.
  unfold Qltb. rewrite negb_true_iff. split.
  - intro H. apply Qnot_le_lt. intro Hle.
    apply Qle_bool_iff in Hle. congruence.
  - intro H. destruct (Qle_bool b a) eqn:E; [|reflexivity].
    apply Qle_bool_iff in E. exfalso. exact (Qlt_not_le _ _ H E).
Qed.

(** ** Rounding to binary64 *)

Lemma Qltb_false (a b : Q) : Qltb a b = false <-> (b <= a)%Q.
Proof.
  unfold Qltb. rewrite negb_false_iff. apply Qle_bool_iff.
Qed.

Lemma pow2_pos (e : Z) : (0 < 2 ^ e)%Q.
Proof. apply Qpower_0_lt. reflexivity. Qed.

Lemma pow2_succ (e : Z) : (2 ^ (e + 1) == 2 * 2 ^ e)%Q.
Proof.
  rewrite Qpower_plus by discriminate. rewrite Qpower_1_r. ring.
Qed.

Lemma pow2_Z (a : Z) : (0 <= a)%Z -> (inject_Z (2 ^ a) == 2 ^ a)%Q.
Proof. intro H. now rewrite Zpower_Qpower. Qed.

Lemma exponentOf_spec (x : Q) :
  (0 < x)%Q ->
  (2 ^ exponentOf x <= x)%Q /\ (x < 2 ^ (exponentOf x + 1))%Q.
Proof.
  intro Hx. unfold exponentOf.
  destruct x as [n d]. simpl Qnum. simpl Qden.
  assert (0 < n)%Z as Hn by (unfold Qlt in Hx; simpl in Hx; lia).
  set (a := Z.log2 n). set (b := Z.log2 (Z.pos d)).
  destruct (Z.log2_spec n Hn) as [Ha1 Ha2]. fold a in Ha1, Ha2.
  destruct (Z.log2_spec (Z.pos d) eq_refl) as [Hb1 Hb2]. fold b in Hb1, Hb2.
  assert (0 <= a)%Z as Ha0 by apply Z.log2_nonneg.
  assert (0 <= b)%Z as Hb0 by apply Z.log2_nonneg.
  assert (n # d == inject_Z n / inject_Z (Z.pos d))%Q as Ex
    by apply Qmake_Qdiv.
  assert (0 < inject_Z (Z.pos d))%Q as Hd by reflexivity.
  assert (inject_Z (2 ^ a) <= inject_Z n)%Q as Qa1 by (rewrite <- Zle_Qle; exact Ha1).
  assert (inject_Z n < inject_Z (2 ^ Z.succ a))%Q as Qa2 by (rewrite <- Zlt_Qlt; exact Ha2).
  assert (inject_Z (2 ^ b) <= inject_Z (Z.pos d))%Q as Qb1 by (rewrite <- Zle_Qle; exact Hb1).
  assert (inject_Z (Z.pos d) < inject_Z (2 ^ Z.succ b))%Q as Qb2 by (rewrite <- Zlt_Qlt; exact Hb2).
  rewrite pow2_Z in Qa1, Qa2, Qb1, Qb2 by lia.
  unfold Z.succ in Qa2, Qb2. rewrite pow2_succ in Qa2, Qb2.
  pose proof (pow2_pos a) as Pa. pose proof (pow2_pos b) as Pb.
  pose proof (pow2_pos (a - b)) as Pab.
  assert (2 ^ a == 2 ^ (a - b) * 2 ^ b)%Q as Eab.
  { rewrite <- Qpower_plus by discriminate.
    replace (a - b + b)%Z with a by lia. reflexivity. }
  (* x * d = n *)
  assert ((n # d) * inject_Z (Z.pos d) == inject_Z n)%Q as Exd.
  { rewrite Ex. field. intro H. rewrite H in Hd. discriminate Hd. }
  set (x := (n # d)%Q) in *.
  set (D := inject_Z (Z.pos d)) in *. set (N := inject_Z n) in *.
  set (A := (2 ^ a)%Q) in *. set (B := (2 ^ b)%Q) in *.
  set (E := (2 ^ (a - b))%Q) in *.
  assert (x < 2 * E)%Q as Hupper.
  { apply Qnot_le_lt. intro Hc.
    assert (2 * E * D <= x * D)%Q by (apply Qmult_le_compat_r; lra).
    assert (2 * E * B <= 2 * E * D)%Q by (apply Qmult_le_l; lra).
    lra. }
  assert (E <= 2 * x)%Q as Hlower.
  { apply Qnot_lt_le. intro Hc.
    assert (2 * x * D < E * D)%Q by (apply Qmult_lt_compat_r; lra).
    assert (E * D < E * (2 * B))%Q by (apply Qmult_lt_l; lra).
    lra. }
  destruct (Qle_bool E x) eqn:Ecmp.
  - apply Qle_bool_iff in Ecmp. split; [exact Ecmp|].
    rewrite pow2_succ. exact Hupper.
  - assert (x < E)%Q as Hlt.
    { apply Qnot_le_lt. intro Hc. apply Qle_bool_iff in Hc. congruence. }
    replace (a - b - 1 + 1)%Z with (a - b)%Z by lia. split; [|exact Hlt].
    assert (E == 2 * 2 ^ (a - b - 1))%Q as EE.
    { unfold E. rewrite <- pow2_succ.
      replace (a - b - 1 + 1)%Z with (a - b)%Z by lia. reflexivity. }
    lra.
Qed.

Lemma roundHalfEven_near (z : Q) :
  (inject_Z (Qfloor z) <= z)%Q /\ (z < inject_Z (Qfloor z) + 1)%Q.
Proof.
  split; [apply Qfloor_le|].
  pose proof (Qlt_floor z) as H. rewrite inject_Z_plus in H. exact H.
Qed.

Lemma roundHalfEven_le (z : Q) (K : Z) :
  (z <= inject_Z K)%Q -> (roundHalfEven z <= K)%Z.
Proof.
  intro H. destruct (roundHalfEven_near z) as [Hlo Hhi].
  assert (Qfloor z <= K)%Z as Hf.
  { rewrite Zle_Qle. lra. }
  unfold roundHalfEven.
  destruct (Qltb (z - inject_Z (Qfloor z)) (1 # 2)) eqn:E1; [exact Hf|].
  apply Qltb_false in E1.
  assert (Qfloor z < K)%Z as Hlt.
  { rewrite Zlt_Qlt. lra. }
  destruct (Qltb (1 # 2) (z - inject_Z (Qfloor z))); [lia|].
  destruct (Z.even (Qfloor z)); lia.
Qed.

Lemma roundHalfEven_ge (z : Q) (K : Z) :
  (inject_Z K <= z)%Q -> (K <= roundHalfEven z)%Z.
Proof.
  intro H. destruct (roundHalfEven_near z) as [Hlo Hhi].
  assert (K <= Qfloor z)%Z as Hf.
  { assert (K < Qfloor z + 1)%Z; [|lia].
    rewrite Zlt_Qlt, inject_Z_plus. change (inject_Z 1) with 1%Q. lra. }
  unfold roundHalfEven.
  destruct (Qltb (z - inject_Z (Qfloor z)) (1 # 2)); [exact Hf|].
  destruct (Qltb (1 # 2) (z - inject_Z (Qfloor z))); [lia|].
  destruct (Z.even (Qfloor z)); lia.
Qed.

Lemma roundHalfEven_lt_even (z : Q) (K : Z) :
  Z.even K = true ->
  ((roundHalfEven z < K)%Z <-> (z < inject_Z K - (1 # 2))%Q).
Proof.
  intro HK. destruct (roundHalfEven_near z) as [Hlo Hhi].
  unfold roundHalfEven.
  set (f := Qfloor z) in *.
  destruct (Qltb (z - inject_Z f) (1 # 2)) eqn:E1.
  - apply Qltb_lt in E1. split; intro H.
    + assert (f + 1 <= K)%Z as Hle by lia.
      rewrite Zle_Qle, inject_Z_plus in Hle. change (inject_Z 1) with 1%Q in Hle.
      lra.
    + assert (f < K)%Z; [|lia]. rewrite Zlt_Qlt. lra.
  - apply Qltb_false in E1.
    destruct (Qltb (1 # 2) (z - inject_Z f)) eqn:E2.
    + apply Qltb_lt in E2. split; intro H.
      * assert (f + 2 <= K)%Z as Hle by lia.
        rewrite Zle_Qle, inject_Z_plus in Hle.
        change (inject_Z 2) with 2%Q in Hle. lra.
      * assert (f + 1 < K)%Z; [|lia].
        rewrite Zlt_Qlt, inject_Z_plus. change (inject_Z 1) with 1%Q. lra.
    + apply Qltb_false in E2.
      assert (z == inject_Z f + (1 # 2))%Q as Ez by lra.
      destruct (Z.even f) eqn:Ef.
      * split; intro H.
        -- assert (f + 2 <= K)%Z as Hle.
           { assert (f + 1 <> K)%Z as Hne.
             { intro E. rewrite <- E, Z.even_add, Ef in HK. discriminate HK. }
             lia. }
           rewrite Zle_Qle, inject_Z_plus in Hle.
           change (inject_Z 2) with 2%Q in Hle. lra.
        -- assert (f + 1 < K + 1)%Z; [|lia].
           rewrite Zlt_Qlt, !inject_Z_plus. change (inject_Z 1) with 1%Q. lra.
      * split; intro H.
        -- assert (f + 2 <= K)%Z as Hle by lia.
           rewrite Zle_Qle, inject_Z_plus in Hle.
           change (inject_Z 2) with 2%Q in Hle. lra.
        -- rewrite Zlt_Qlt, inject_Z_plus. change (inject_Z 1) with 1%Q. lra.
Qed.

(** The rounded magnitude of a positive number. *)
Lemma rounded_bounds (ax : Q) :
  (0 < ax)%Q ->
  let e := Z.max (exponentOf ax) (-1022) in
  let ulp := (2 ^ (e - 52))%Q in
  let y := (inject_Z (roundHalfEven (ax / ulp)) * ulp)%Q in
  (0 <= y)%Q
  /\ (y <= 2 ^ (e + 1))%Q
  /\ ((-1022 <= exponentOf ax)%Z -> (2 ^ e <= y)%Q).
Proof.
  intros Hpos e ulp y.
  destruct (exponentOf_spec ax Hpos) as [Hlo Hhi].
  pose proof (pow2_pos (e - 52)) as Hulp. fold ulp in Hulp.
  assert (2 ^ (e + 1) == inject_Z (2 ^ 53) * ulp)%Q as Etop.
  { rewrite pow2_Z by lia. unfold ulp.
    rewrite <- Qpower_plus by discriminate.
    replace (53 + (e - 52))%Z with (e + 1)%Z by lia. reflexivity. }
  assert (2 ^ e == inject_Z (2 ^ 52) * ulp)%Q as Ebot.
  { rewrite pow2_Z by lia. unfold ulp.
    rewrite <- Qpower_plus by discriminate.
    replace (52 + (e - 52))%Z with e by lia. reflexivity. }
  assert (ax < 2 ^ (e + 1))%Q as Hhi'.
  { apply (Qlt_le_trans _ _ _ Hhi).
    apply Qpower_le_compat_l; [lia | discriminate]. }
  assert (roundHalfEven (ax / ulp) <= 2 ^ 53)%Z as Hm.
  { apply roundHalfEven_le. apply Qle_shift_div_r; [exact Hulp|]. lra. }
  assert (0 <= roundHalfEven (ax / ulp))%Z as Hm0.
  { apply roundHalfEven_ge. apply Qle_shift_div_l; [exact Hulp|].
    change (inject_Z 0) with 0%Q. lra. }
  split; [|split].
  - unfold y. apply Qmult_le_0_compat; [|lra].
    change 0%Q with (inject_Z 0). now rewrite <- Zle_Qle.
  - rewrite Etop. unfold y. apply Qmult_le_compat_r; [|lra].
    now rewrite <- Zle_Qle.
  - intro Hnormal.
    assert (e = exponentOf ax) as Ee by (unfold e; lia).
    rewrite Ebot. unfold y. apply Qmult_le_compat_r; [|lra].
    rewrite <- Zle_Qle. apply roundHalfEven_ge.
    apply Qle_shift_div_l; [exact Hulp|].
    rewrite <- Ebot, Ee. exact Hlo.
Qed.

Lemma exponentOf_unique (ax : Q) (k : Z) :
  (2 ^ k <= ax)%Q -> (ax < 2 ^ (k + 1))%Q -> exponentOf ax = k.
Proof.
  intros Hlo Hhi.
  assert (0 < ax)%Q as Hpos
    by (apply (Qlt_le_trans _ (2 ^ k)); [apply pow2_pos | exact Hlo]).
  destruct (exponentOf_spec ax Hpos) as [Hlo' Hhi'].
  assert (exponentOf ax < k + 1)%Z.
  { apply (Qpower_lt_compat_l_inv 2); [|reflexivity].
    apply (Qle_lt_trans _ _ _ Hlo' Hhi). }
  assert (k < exponentOf ax + 1)%Z.
  { apply (Qpower_lt_compat_l_inv 2); [|reflexivity].
    apply (Qle_lt_trans _ _ _ Hlo Hhi'). }
  lia.
Qed.

Lemma rounded_below_10 (ax : Q) :
  (0 < ax)%Q ->
  let e := Z.max (exponentOf ax) (-1022) in
  let ulp := (2 ^ (e - 52))%Q in
  let y := (inject_Z (roundHalfEven (ax / ulp)) * ulp)%Q in
  ((y < 10)%Q <-> (ax < 10 - 2 ^ (-50))%Q)
  /\ ((2 ^ 1024 <= y)%Q -> (16 <= ax)%Q).
Proof.
  intros Hpos e ulp y.
  destruct (rounded_bounds ax Hpos) as (Hy0 & Hytop & Hybot).
  fold e in Hytop, Hybot. fold ulp y in Hy0, Hytop, Hybot.
  destruct (exponentOf_spec ax Hpos) as [Hlo Hhi].
  assert (2 ^ (-50) == 1 # 1125899906842624)%Q as E50 by reflexivity.
  assert (2 ^ 3 == 8)%Q as E8 by reflexivity.
  assert (2 ^ 4 == 16)%Q as E16 by reflexivity.
  assert (16 < 2 ^ 1024)%Q as Ebig.
  { rewrite <- E16. apply Qpower_lt_compat_l; [lia | reflexivity]. }
  destruct (Qlt_le_dec ax 8) as [H8|H8].
  - (* below 8: the rounded value is at most 8 *)
    assert (exponentOf ax < 3)%Z as He0.
    { apply (Qpower_lt_compat_l_inv 2); [|reflexivity]. lra. }
    assert (2 ^ (e + 1) <= 2 ^ 3)%Q as Hle
      by (apply Qpower_le_compat_l; [unfold e; lia | discriminate]).
    split; [split; intros _; lra | intro H; lra].
  - destruct (Qlt_le_dec ax 16) as [H16|H16].
    + (* between 8 and 16: the last place is 2^-49 *)
      assert (exponentOf ax = 3%Z) as He0
        by (apply exponentOf_unique; [lra | change (3 + 1)%Z with 4%Z; lra]).
      assert (e = 3%Z) as Ee by (unfold e; lia).
      assert (ulp == 1 # 562949953421312)%Q as Eulp
        by (unfold ulp; rewrite Ee; reflexivity).
      split; [|intro H; rewrite Ee in Hytop; change (3 + 1)%Z with 4%Z in Hytop; lra].
      assert (Z.even 5629499534213120 = true) as Heven by reflexivity.
      destruct (roundHalfEven_lt_even (ax / ulp) 5629499534213120 Heven)
        as [Hround1 Hround2].
      rewrite Zlt_Qlt in Hround1, Hround2.
      change (inject_Z 5629499534213120) with 5629499534213120%Q
        in Hround1, Hround2.
      assert (ax / ulp == ax * 562949953421312)%Q as Ediv.
      { transitivity (ax / (1 # 562949953421312))%Q; [|field].
        apply Qdiv_comp; [reflexivity | exact Eulp]. }
      assert (y == inject_Z (roundHalfEven (ax / ulp)) * (1 # 562949953421312))%Q
        as Ey by (apply Qmult_comp; [reflexivity | exact Eulp]).
      set (m := inject_Z (roundHalfEven (ax / ulp))) in *.
      set (q := (ax / ulp)%Q) in *.
      split; intro H.
      * assert (m < 5629499534213120)%Q as Hm by lra.
        apply Hround1 in Hm. lra.
      * assert (q < 5629499534213120 - (1 # 2))%Q as Hq by lra.
        apply Hround2 in Hq. lra.
    + (* from 16 on: the rounded value is at least 16 *)
      assert (3 < exponentOf ax)%Z as He0.
      { assert (4 < exponentOf ax + 1)%Z; [|lia].
        apply (Qpower_lt_compat_l_inv 2); [|reflexivity]. lra. }
      assert (2 ^ 4 <= 2 ^ e)%Q as Hle
        by (apply Qpower_le_compat_l; [unfold e; lia | discriminate]).
      specialize (Hybot ltac:(lia)).
      split; [split; intro H; lra | intros _; exact H16].
Qed.

Lemma Qabs_pos_iff (x : Q) : Qeq_bool x 0 = false -> (0 < Qabs x)%Q.
Proof.
  intro H. destruct (Qlt_le_dec 0 (Qabs x)) as [Hlt|Hle]; [exact Hlt|].
  exfalso. apply Qeq_bool_neq in H. apply H.
  pose proof (Qabs_nonneg x) as H0. 
  destruct (Qabs_Qle_condition x 0) as [Hc _].
  specialize (Hc Hle). lra.
Qed.

(** What the test [Math.abs(a - b) < 10] decides, in exact terms: the
    difference rounds to a number below 10 exactly when it is below
    [10 - 2^-50], the middle between 10 and the binary64 number before
    it. *)
Lemma binary64_below_10 (x : Q) :
  Number_ltb (Number_abs (binary64 x)) 10 = true
  <-> (Qabs x < 10 - 2 ^ (-50))%Q.
Proof.
  unfold binary64.
  destruct (Qeq_bool x 0) eqn:E0.
  - apply Qeq_bool_iff in E0. simpl.
    assert (Qabs x == 0)%Q as -> by (rewrite E0; reflexivity).
    split; reflexivity.
  - pose proof (Qabs_pos_iff x E0) as Hpos.
    destruct (rounded_below_10 (Qabs x) Hpos) as [Hiff Hbig].
    destruct (rounded_bounds (Qabs x) Hpos) as (Hy0 & _ & _).
    cbv zeta in *.
    set (y := (inject_Z
                 (roundHalfEven
                    (Qabs x / 2 ^ (Z.max (exponentOf (Qabs x)) (-1022) - 52)))
               * 2 ^ (Z.max (exponentOf (Qabs x)) (-1022) - 52))%Q) in *.
    destruct (Qltb y (2 ^ 1024)) eqn:Eov.
    + unfold Number_abs, Number_ltb, Math_abs. rewrite Qltb_lt.
      assert (Qabs (if Qltb x 0 then - y else y) == y)%Q as ->.
      { destruct (Qltb x 0); [rewrite Qabs_opp|]; now apply Qabs_pos. }
      exact Hiff.
    + apply Qltb_false in Eov. unfold Number_abs, Number_ltb.
      assert (2 ^ (-50) == 1 # 1125899906842624)%Q as E50 by reflexivity.
      specialize (Hbig Eov).
      split; [discriminate | intro H; lra].
Qed.

(** The subtraction of the embedding against the binary64 subtraction of
    the kernel: on the numbers nearest to 0.1 and 10.1, to 6.4 and 16.4, to
    1e-20 and 10, to 130.3 and 100.1, on two ties between neighbours, at
    the smallest numbers and at the overflow. *)
Example subtract_is_binary64_subtraction :
  forallb subtractAgreesOn
    [(0x1.999999999999ap-4, 0x1.4333333333333p+3);
     (0x1.999999999999ap+2, 0x1.0666666666666p+4);
     (0x1.79ca10c924223p-67, 0x1.4p+3);
     (0x1.4p+3, 0x1.79ca10c924223p-67);
     (0x1.049999999999ap+7, 0x1.9066666666666p+6);
     (0x1p+53, -0x1p+0);
     (0x1.0000000000001p+53, -0x1p+0);
     (0x1p-1074, 0x1.8p-1073);
     (0x1.8p-1022, 0x1.0000000000001p-1022);
     (0x1.fffffffffffffp+1023, -0x1.fffffffffffffp+1023);
     (-0x1.fffffffffffffp+1023, 0x1p+970);
     (0x1.fffffffffffffp+1023, -0x1p+969);
     (0x1.8p+3, 0x1.8p+3)]%float
  = true.
Proof. vm_compute. reflexivity. Qed.

(** ** The duplicate test *)

Lemma isDuplicateOf_iff result r :
  isDuplicateOf result r = true
  <-> r_audioFile r = r_audioFile result
      /\ (Qabs (r_timestamp r - r_timestamp result) < 10 - 2 ^ (-50))%Q.
Proof.
  unfold isDuplicateOf, subtract.
  now rewrite andb_true_iff, String.eqb_eq, binary64_below_10.
Qed.

Lemma isDuplicateOf_refl r : isDuplicateOf r r = true.
Proof.
  apply isDuplicateOf_iff. split; [reflexivity|].
  assert (r_timestamp r - r_timestamp r == 0)%Q as -> by ring.
  reflexivity.
Qed.

Lemma findIndexFrom_skip {A : Type} (p : A -> bool) l1 l2 :
  forall i, existsb p l1 = false ->
            findIndexFrom p (l1 ++ l2) i = findIndexFrom p l2 (i + List.length l1).
Proof.
  induction l1 as [|x l1 IH]; intros i H; simpl in *.
  - now rewrite Nat.add_0_r.
  - apply orb_false_iff in H as [Hx Hl]. rewrite Hx, (IH (S i) Hl).
    f_equal. lia.
Qed.

Lemma findIndexFrom_before {A : Type} (p : A -> bool) l1 l2 :
  forall i, existsb p l1 = true ->
            exists k, findIndexFrom p (l1 ++ l2) i = Some k
                      /\ k < i + List.length l1.
Proof.
  induction l1 as [|x l1 IH]; intros i H; simpl in *; [discriminate|].
  destruct (p x).
  - exists i. split; [reflexivity | lia].
  - destruct (IH (S i) H) as (k & Hk & Hlt). exists k. split; [exact Hk | lia].
Qed.

(** An element is kept exactly when nothing before it, in the list that is
    being filtered, is a duplicate of it. *)
Lemma kept_iff_no_earlier_duplicate seen r rest :
  option_nat_eqb (findIndex (isDuplicateOf r) (seen ++ r :: rest))
                 (List.length seen)
  = negb (existsb (isDuplicateOf r) seen).
Proof.
  unfold findIndex.
  destruct (existsb (isDuplicateOf r) seen) eqn:E; simpl.
  - destruct (findIndexFrom_before (isDuplicateOf r) seen (r :: rest) 0 E)
      as (k & -> & Hlt).
    simpl. apply Nat.eqb_neq. lia.
  - rewrite (findIndexFrom_skip _ _ _ 0 E). simpl.
    rewrite isDuplicateOf_refl. simpl. apply Nat.eqb_refl.
Qed.

Lemma filterFrom_firstOccurrences rest :
  forall seen,
    filterFrom
      (fun result index self =>
         option_nat_eqb (findIndex (isDuplicateOf result) self) index)
      (seen ++ rest) rest (List.length seen)
    = firstOccurrences seen rest.
Proof.
  induction rest as [|r rest IH]; intro seen; simpl; [reflexivity|].
  rewrite kept_iff_no_earlier_duplicate.
  specialize (IH (seen ++ [r])%list).
  rewrite <- app_assoc, length_app in IH. simpl in IH.
  rewrite Nat.add_1_r in IH. rewrite IH.
  now destruct (existsb (isDuplicateOf r) seen).
Qed.

Lemma uniqueResults_firstOccurrences results :
  uniqueResults results = firstOccurrences [] results.
Proof.
  unfold uniqueResults, filterWithIndex.
  apply (filterFrom_firstOccurrences results []).
Qed.

Lemma firstOccurrences_snoc rest r :
  forall seen,
    firstOccurrences seen (rest ++ [r])
    = (firstOccurrences seen rest
       ++ if existsb (isDuplicateOf r) (seen ++ rest) then [] else [r])%list.
Proof.
  induction rest as [|x rest IH]; intro seen; simpl.
  - rewrite app_nil_r. now destruct (existsb (isDuplicateOf r) seen).
  - rewrite (IH (seen ++ [x])%list), <- app_assoc. simpl.
    now destruct (existsb (isDuplicateOf x) seen).
Qed.

Lemma uniqueResults_snoc results r :
  uniqueResults (results ++ [r])
  = (uniqueResults results
     ++ if existsb (isDuplicateOf r) results then [] else [r])%list.
Proof.
  rewrite !uniqueResults_firstOccurrences. apply firstOccurrences_snoc.
Qed.

(** C5, as stated, fails where the rounding of the difference decides:
    the binary64 numbers nearest to 0.1 and 10.1 are less than 10 apart,
    their difference rounds to 10, and two results of one file at these
    times are both kept, also when they come from two matches. *)
Lemma close_results_both_kept :
  (Qabs (Corpus.double_10_1 - Corpus.double_0_1) < 10)%Q
  /\ (forall s1 q1 s2 q2,
         uniqueResults [mkSearchResult "a.mp3" Corpus.double_0_1 s1 q1;
                        mkSearchResult "a.mp3" Corpus.double_10_1 s2 q2]
         = [mkSearchResult "a.mp3" Corpus.double_0_1 s1 q1;
            mkSearchResult "a.mp3" Corpus.double_10_1 s2 q2])
  /\ (let segmentMap := buildSegmentMap Corpus.manifestNear in
      let matches := [mkGeminiMatch "near.mp3" "one" "rounding";
                      mkGeminiMatch "near.mp3" "two" "rounding"] in
      validateMatches segmentMap matches
      = [mkSearchResult "near.mp3" Corpus.double_0_1 "rounding" "one";
         mkSearchResult "near.mp3" Corpus.double_10_1 "rounding" "two"]
      /\ uniqueResults (validateMatches segmentMap matches)
         = validateMatches segmentMap matches).
Proof.
  split; [reflexivity|]. split.
  - intros s1 q1 s2 q2. vm_compute. reflexivity.
  - split; vm_compute; reflexivity.
Qed.

(** C5, amended. The difference of two timestamps is rounded to binary64
    before it is compared with 10: a result is a duplicate of another
    exactly when both have the same [audioFile] and their timestamps are
    less than [10 - 2^-50] apart (from there on the difference rounds to 10
    or more), and a result is kept exactly when nothing before it in the
    list is a duplicate of it. Two matches resolved in "a.mp3" at 12 and 15
    leave the first result only; at 12 and 25 both stay. *)
Theorem duplicates_first_wins :
  (forall result r,
      isDuplicateOf result r = true
      <-> r_audioFile r = r_audioFile result
          /\ (Qabs (r_timestamp r - r_timestamp result) < 10 - 2 ^ (-50))%Q)
  /\ (forall results r,
         uniqueResults (results ++ [r])
         = (uniqueResults results
            ++ if existsb (isDuplicateOf r) results then [] else [r])%list)
  /\ (forall s1 q1 s2 q2,
         uniqueResults [mkSearchResult "a.mp3" 12 s1 q1;
                        mkSearchResult "a.mp3" 15 s2 q2]
         = [mkSearchResult "a.mp3" 12 s1 q1])
  /\ (forall s1 q1 s2 q2,
         uniqueResults [mkSearchResult "a.mp3" 12 s1 q1;
                        mkSearchResult "a.mp3" 25 s2 q2]
         = [mkSearchResult "a.mp3" 12 s1 q1;
            mkSearchResult "a.mp3" 25 s2 q2])
  /\ (let segmentMap := buildSegmentMap Corpus.manifest in
      let near := [mkGeminiMatch "a.mp3" "he" "childhood";
                   mkGeminiMatch "a.mp3" "said" "childhood"] in
      let far := [mkGeminiMatch "a.mp3" "he" "childhood";
                  mkGeminiMatch "a.mp3" "hello world" "childhood"] in
      validateMatches segmentMap near
      = [mkSearchResult "a.mp3" 12 "childhood" "he";
         mkSearchResult "a.mp3" 15 "childhood" "said"]
      /\ uniqueResults (validateMatches segmentMap near)
         = [mkSearchResult "a.mp3" 12 "childhood" "he"]
      /\ uniqueResults (validateMatches segmentMap far)
         = [mkSearchResult "a.mp3" 12 "childhood" "he";
            mkSearchResult "a.mp3" 25 "childhood" "hello world"]).
Proof.
  split; [exact isDuplicateOf_iff|].
  split; [exact uniqueResults_snoc|].
  split; [intros; vm_compute; reflexivity|].
  split; [intros; vm_compute; reflexivity|].
  repeat split; vm_compute; reflexivity.
Qed.

(** C10. A result is compared with every earlier result of the list that is
    being filtered, also with one that the filter discards: a duplicate [e]
    anywhere before [r] removes [r]. Of three results in one file at 0, 9
    and 18 only the first is left, although 0 and 18 are no duplicates of
    one another. *)
Theorem discarded_results_still_shadow :
  (forall before e between r,
      isDuplicateOf r e = true ->
      uniqueResults (before ++ e :: between ++ [r])
      = uniqueResults (before ++ e :: between))
  /\ (forall file s0 q0 s9 q9 s18 q18,
         let r0 := mkSearchResult file 0 s0 q0 in
         let r9 := mkSearchResult file 9 s9 q9 in
         let r18 := mkSearchResult file 18 s18 q18 in
         uniqueResults [r0; r9; r18] = [r0]
         /\ isDuplicateOf r18 r0 = false
         /\ isDuplicateOf r0 r18 = false).
Proof.
  assert (forall before e between r,
             isDuplicateOf r e = true ->
             uniqueResults (before ++ e :: between ++ [r])
             = uniqueResults (before ++ e :: between)) as Hgen.
  { intros before e between r Hd.
    change (before ++ e :: between ++ [r])%list
      with (before ++ (e :: between) ++ [r])%list.
    rewrite app_assoc, uniqueResults_snoc.
    assert (existsb (isDuplicateOf r) (before ++ e :: between) = true) as ->.
    { apply existsb_exists. exists e. split; [|exact Hd].
      apply in_or_app. right. now left. }
    apply app_nil_r. }
  split; [exact Hgen|].
  intros file s0 q0 s9 q9 s18 q18 r0 r9 r18.
  assert (isDuplicateOf r18 r9 = true) as H189
    by (apply isDuplicateOf_iff; split; reflexivity).
  assert (isDuplicateOf r9 r0 = true) as H90
    by (apply isDuplicateOf_iff; split; reflexivity).
  split; [|split].
  - pose proof (Hgen [r0] r9 [] r18 H189) as H3.
    pose proof (Hgen [] r0 [] r9 H90) as H2.
    pose proof (uniqueResults_snoc [] r0) as H1.
    cbn [app existsb] in H1, H2, H3.
    now rewrite H3, H2, H1.
  - unfold isDuplicateOf. apply andb_false_iff. right.
    vm_compute. reflexivity.
  - unfold isDuplicateOf. apply andb_false_iff. right.
    vm_compute. reflexivity.
Qed.

Lemma discarded_results_still_shadow_witness :
  uniqueResults ([Corpus.at_ "a.mp3" 0]
                 ++ Corpus.at_ "a.mp3" 9 :: [] ++ [Corpus.at_ "a.mp3" 18])
  = uniqueResults ([Corpus.at_ "a.mp3" 0] ++ Corpus.at_ "a.mp3" 9 :: []).
Proof.
  apply (proj1 discarded_results_still_shadow
           [Corpus.at_ "a.mp3" 0] (Corpus.at_ "a.mp3" 9) []
           (Corpus.at_ "a.mp3" 18)).
  reflexivity.
Defined.

(** ** The clean-up of the model's text *)

Lemma length_append (a b : string) :
  length (a ++ b) = length a + length b.
Proof. induction a as [|c a IH]; simpl; [reflexivity | now rewrite IH]. Qed.

Lemma sliceFrom_append (a b : string) : sliceFrom (length a) (a ++ b) = b.
Proof. induction a as [|c a IH]; simpl; [reflexivity | exact IH]. Qed.

Lemma substring_append (a b : string) : substring 0 (length a) (a ++ b) = a.
Proof.
  induction a as [|c a IH]; simpl.
  - now destruct b.
  - now rewrite IH.
Qed.

Lemma append_assoc (a b c : string) : (a ++ b) ++ c = a ++ (b ++ c).
Proof. induction a as [|x a IH]; simpl; [reflexivity | now rewrite IH]. Qed.

Lemma endsWith_append (a t : string) : endsWith (a ++ t) t = true.
Proof.
  unfold endsWith. rewrite length_append.
  replace (length a + length t - length t) with (length a) by lia.
  rewrite sliceFrom_append, String.eqb_refl.
  apply andb_true_iff. split; [apply Nat.leb_le; lia | reflexivity].
Qed.

Lemma sliceDropLast_append (a t : string) :
  sliceDropLast (length t) (a ++ t) = a.
Proof.
  unfold sliceDropLast. rewrite length_append.
  replace (length a + length t - length t) with (length a) by lia.
  apply substring_append.
Qed.

Lemma trimEnd_nonspace_end (s : string) (c : ascii) :
  isSpaceChar c = false ->
  trimEnd (s ++ String c "") = s ++ String c "".
Proof.
  intro Hc. induction s as [|a s IH]; simpl.
  - now rewrite Hc.
  - rewrite IH. now destruct s.
Qed.

Lemma trimEnd_idempotent (s : string) : trimEnd (trimEnd s) = trimEnd s.
Proof.
  induction s as [|c r IH]; simpl; [reflexivity|].
  destruct (trimEnd r) as [|a r'] eqn:E.
  - destruct (isSpaceChar c) eqn:Hc; simpl; [reflexivity | now rewrite Hc].
  - change (trimEnd (String c (String a r')))
      with (match trimEnd (String a r') with
            | "" => if isSpaceChar c then "" else String c ""
            | x => String c x
            end).
    now rewrite IH.
Qed.

Lemma trimStart_startsTrimmed (s : string) : startsTrimmed (trimStart s) = true.
Proof.
  induction s as [|c r IH]; simpl; [reflexivity|].
  destruct (isSpaceChar c) eqn:Hc; [exact IH | simpl; now rewrite Hc].
Qed.

Lemma trimStart_fixed (s : string) : startsTrimmed s = true -> trimStart s = s.
Proof.
  destruct s as [|c r]; simpl; [reflexivity|].
  intro H. apply negb_true_iff in H. now rewrite H.
Qed.

Lemma trimEnd_startsTrimmed (s : string) :
  startsTrimmed s = true -> startsTrimmed (trimEnd s) = true.
Proof.
  destruct s as [|c r]; simpl; [reflexivity|].
  intro H. destruct (trimEnd r); simpl; [|exact H].
  apply negb_true_iff in H. rewrite H. simpl. now rewrite H.
Qed.

Lemma trim_idempotent (s : string) : trim (trim s) = trim s.
Proof.
  unfold trim.
  rewrite (trimStart_fixed (trimEnd (trimStart s))).
  - apply trimEnd_idempotent.
  - apply trimEnd_startsTrimmed, trimStart_startsTrimmed.
Qed.

Lemma trim_fenced (opening inner : string) :
  startsTrimmed opening = true -> opening <> "" ->
  trim (opening ++ inner ++ "```") = opening ++ inner ++ "```".
Proof.
  intros Ho Hne. unfold trim.
  rewrite trimStart_fixed
    by (destruct opening; [contradiction | exact Ho]).
  change "```" with ("``" ++ "`").
  rewrite <- !append_assoc.
  now apply trimEnd_nonspace_end.
Qed.

Lemma startsWith_append (t x : string) : startsWith (t ++ x) t = true.
Proof.
  unfold startsWith. induction t as [|c t IH]; simpl.
  - now destruct x.
  - destruct (ascii_dec c c) as [_|N]; [exact IH | contradiction].
Qed.

Lemma cleanResponse_json_fence (inner : string) :
  cleanResponse ("```json" ++ inner ++ "```") = trim inner.
Proof.
  unfold cleanResponse. cbv zeta.
  rewrite (trim_fenced "```json" inner eq_refl) by discriminate.
  rewrite startsWith_append.
  change (sliceFrom 7 ("```json" ++ inner ++ "```")) with (inner ++ "```").
  rewrite endsWith_append.
  pose proof (sliceDropLast_append inner "```") as Hd.
  change (length "```") with 3 in Hd.
  now rewrite Hd.
Qed.

Lemma cleanResponse_plain_fence (inner : string) :
  startsWith ("```" ++ inner ++ "```") "```json" = false ->
  cleanResponse ("```" ++ inner ++ "```") = trim inner.
Proof.
  intro Hj. unfold cleanResponse. cbv zeta.
  rewrite (trim_fenced "```" inner eq_refl) by discriminate.
  rewrite Hj.
  rewrite startsWith_append.
  change (sliceFrom 3 ("```" ++ inner ++ "```")) with (inner ++ "```").
  rewrite endsWith_append.
  pose proof (sliceDropLast_append inner "```") as Hd.
  change (length "```") with 3 in Hd.
  now rewrite Hd.
Qed.

Lemma prefix_append_l (a b : string) :
  forall s, prefix (a ++ b) s = true -> prefix a s = true.
Proof.
  induction a as [|c a IH]; intros s H.
  - now destruct s.
  - destruct s as [|d s]; simpl in *; [discriminate H|].
    destruct (ascii_dec c d); [now apply IH | discriminate H].
Qed.

Lemma startsWith_shorter (s : string) :
  startsWith s "```" = false -> startsWith s "```json" = false.
Proof.
  unfold startsWith. intro H.
  destruct (prefix "```json" s) eqn:E; [|reflexivity].
  rewrite (prefix_append_l "```" "json" s E) in H. discriminate H.
Qed.

Lemma cleanResponse_no_fence (responseText : string) :
  startsWith (trim responseText) "```" = false ->
  endsWith (trim responseText) "```" = false ->
  cleanResponse responseText = trim responseText.
Proof.
  intros Hs He. unfold cleanResponse. cbv zeta.
  rewrite (startsWith_shorter _ Hs), Hs, He.
  apply trim_idempotent.
Qed.

Lemma cleanResponse_leading_json (responseText rest : string) :
  trim responseText = "```json" ++ rest ->
  cleanResponse responseText
  = trim (if endsWith rest "```" then sliceDropLast 3 rest else rest).
Proof.
  intro E. unfold cleanResponse. cbv zeta.
  rewrite E, startsWith_append. reflexivity.
Qed.

Lemma cleanResponse_leading_plain (responseText rest : string) :
  trim responseText = "```" ++ rest ->
  startsWith ("```" ++ rest) "```json" = false ->
  cleanResponse responseText
  = trim (if endsWith rest "```" then sliceDropLast 3 rest else rest).
Proof.
  intros E Hj. unfold cleanResponse. cbv zeta.
  rewrite E, Hj, startsWith_append. reflexivity.
Qed.

Lemma cleanResponse_no_leading (responseText : string) :
  startsWith (trim responseText) "```" = false ->
  cleanResponse responseText
  = trim (if endsWith (trim responseText) "```"
          then sliceDropLast 3 (trim responseText)
          else trim responseText).
Proof.
  intro Hs. unfold cleanResponse. cbv zeta.
  now rewrite (startsWith_shorter _ Hs), Hs.
Qed.

(** ** The response *)


(** C7. The text of the model is trimmed, loses a leading [```json] or
    [```] and then a trailing [```] where it has them, is trimmed again and
    handed to [JSON.parse]. When [JSON.parse] throws, or returns anything
    but an array, the loop runs over no match at all and the handler answers
    200 with [results: []]. *)
Theorem malformed_response_gives_empty_results JSON_parse manifest text_ :
  (forall responseText rest,
      trim responseText = "```json" ++ rest ->
      cleanResponse responseText
      = trim (if endsWith rest "```" then sliceDropLast 3 rest else rest))
  /\ (forall responseText rest,
         trim responseText = "```" ++ rest ->
         startsWith ("```" ++ rest) "```json" = false ->
         cleanResponse responseText
         = trim (if endsWith rest "```" then sliceDropLast 3 rest else rest))
  /\ (forall responseText,
         startsWith (trim responseText) "```" = false ->
         cleanResponse responseText
         = trim (if endsWith (trim responseText) "```"
                 then sliceDropLast 3 (trim responseText)
                 else trim responseText))
  /\ (forall inner,
         endsWith (inner ++ "```") "```" = true
         /\ sliceDropLast 3 (inner ++ "```") = inner
         /\ cleanResponse ("```json" ++ inner ++ "```") = trim inner)
  /\ (match JSON_parse (cleanResponse (orEmptyArray text_)) with
      | inr (JsArray _) => False
      | _ => True
      end ->
      parseMatches JSON_parse (cleanResponse (orEmptyArray text_)) = []
      /\ handler JSON_parse manifest text_ = mkResponse 200 (Results [])).
Proof.
  split; [exact cleanResponse_leading_json|].
  split; [exact cleanResponse_leading_plain|].
  split; [exact cleanResponse_no_leading|].
  split.
  - intro inner. split; [apply endsWith_append|].
    split; [apply (sliceDropLast_append inner "```")
           | apply cleanResponse_json_fence].
  - intro Hbad.
    assert (parseMatches JSON_parse (cleanResponse (orEmptyArray text_)) = [])
      as Hnone.
    { unfold parseMatches.
      destruct (JSON_parse (cleanResponse (orEmptyArray text_))) as [e|v];
        [reflexivity|].
      destruct v; first [reflexivity | contradiction]. }
    split; [exact Hnone|].
    rewrite handler_of_matches, Hnone. reflexivity.
Qed.

Lemma malformed_response_gives_empty_results_witness :
  cleanResponse "  ```json {oops ```  " = "{oops"
  /\ cleanResponse "``` [] ```" = "[]"
  /\ cleanResponse " [] " = "[]"
  /\ handler Corpus.parseEmptyArrayOnly Corpus.manifest
       (Some "  ```json {oops ```  ")
     = mkResponse 200 (Results []).
Proof.
  destruct (malformed_response_gives_empty_results Corpus.parseEmptyArrayOnly
              Corpus.manifest (Some "  ```json {oops ```  "))
    as (Hjson & Hplain & Hnone & _ & Hbad).
  split; [exact (Hjson "  ```json {oops ```  " " {oops ```" eq_refl)|].
  split; [exact (Hplain "``` [] ```" " [] ```" eq_refl eq_refl)|].
  split; [exact (Hnone " [] " eq_refl)|].
  exact (proj2 (Hbad I)).
Defined.

(** What TypeScript's types hide: an element of the array that is [null], or
    whose [quote] is no string, makes the loop throw, and the outer [catch]
    answers 500. *)
Example null_element_reaches_catch :
  handler (fun _ => ret (JsArray [JsNull])) Corpus.manifest (Some "[null]")
  = mkResponse 500 (Error "Failed to search transcripts")
  /\ handler (fun _ => ret (JsArray [JsObject [("quote", JsNumber 1)]]))
       Corpus.manifest (Some "[{}]")
     = mkResponse 500 (Error "Failed to search transcripts").
Proof. split; reflexivity. Qed.

(** * Further properties *)

(** ** The quote locator: what it returns *)

Lemma Math_max_0_nonneg (x : Q) : (0 <= Math_max 0 x)%Q.
Proof.
  unfold Math_max. destruct (Qle_bool 0 x) eqn:E.
  - now apply Qle_bool_iff.
  - apply Qle_refl.
Qed.

Lemma scanWords_timestamp segment quoteWords firstQuoteWord rest :
  forall i,
    let r := scanWords segment quoteWords firstQuoteWord rest i in
    (0 <= timestamp r)%Q /\ (found r = false -> timestamp r = 0%Q).
Proof.
  induction rest as [|w rest IH]; intro i.
  - simpl. split; [apply Qle_refl | reflexivity].
  - cbv zeta. rewrite scanWords_cons.
    destruct (isCandidate (clean (word w)) firstQuoteWord
              && acceptsAt (words (transcript segment)) quoteWords i).
    + simpl. split; [apply Math_max_0_nonneg | discriminate].
    + apply IH.
Qed.

(** X1. The time [findQuoteInSegment] returns is never negative, and it is 0
    whenever the quote is not found. *)
Theorem findQuoteInSegment_timestamp segment quote :
  (0 <= timestamp (findQuoteInSegment segment quote))%Q
  /\ (found (findQuoteInSegment segment quote) = false ->
      timestamp (findQuoteInSegment segment quote) = 0%Q).
Proof.
  unfold findQuoteInSegment.
  destruct (words (transcript segment)) as [|w ws'] eqn:E.
  - destruct (includes _ _); simpl; split;
      first [apply Qle_refl | reflexivity | discriminate].
  - destruct (quoteWordsOf quote) as [|fq rq].
    + simpl. split; [apply Qle_refl | reflexivity].
    + apply scanWords_timestamp.
Qed.

Lemma findQuoteInSegment_timestamp_witness :
  timestamp (findQuoteInSegment Corpus.segA "never said") = 0%Q.
Proof.
  apply (proj2 (findQuoteInSegment_timestamp Corpus.segA "never said")).
  reflexivity.
Defined.

(** ** The quote locator: a phrase of the transcript is found *)

Lemma toLowerCase_append (a b : string) :
  toLowerCase (a ++ b) = toLowerCase a ++ toLowerCase b.
Proof. induction a as [|c a IH]; simpl; [reflexivity | now rewrite IH]. Qed.

Lemma filter_append (p : ascii -> bool) (a b : string) :
  JsString.filter p (a ++ b) = JsString.filter p a ++ JsString.filter p b.
Proof.
  induction a as [|c a IH]; simpl; [reflexivity|].
  rewrite IH. now destruct (p c).
Qed.

Lemma filter_splitAux_tokens (s : string) :
  forall (inSep : bool) (cur : string),
    (inSep = true -> cur = "") ->
    List.filter (fun w => 0 <? length w) (splitAux inSep cur s) = tokens cur s.
Proof.
  induction s as [|c r IH]; intros inSep cur Hinv; simpl.
  - now destruct (0 <? length cur).
  - destruct (isSpaceChar c).
    + destruct inSep.
      * rewrite (Hinv eq_refl). simpl. now apply IH.
      * simpl. rewrite (IH true "" (fun _ => eq_refl)).
        now destruct (0 <? length cur).
    + apply IH. discriminate.
Qed.

Lemma tokens_spaces (s : string) :
  allChars isSpaceChar s = true ->
  forall cur, tokens cur s = if 0 <? length cur then [cur] else [].
Proof.
  induction s as [|c r IH]; intros H cur; simpl; [reflexivity|].
  simpl in H. apply andb_true_iff in H as [Hc Hr].
  rewrite Hc, (IH Hr ""). simpl.
  now destruct (0 <? length cur).
Qed.

Lemma tokens_trimStart (s : string) : tokens "" (trimStart s) = tokens "" s.
Proof.
  induction s as [|c r IH]; simpl; [reflexivity|].
  destruct (isSpaceChar c) eqn:Hc; simpl; [exact IH | now rewrite Hc].
Qed.

Lemma trimEnd_empty_spaces (s : string) :
  trimEnd s = "" -> allChars isSpaceChar s = true.
Proof.
  induction s as [|c r IH]; simpl; [reflexivity|].
  destruct (trimEnd r) as [|a r'] eqn:E; [|discriminate].
  destruct (isSpaceChar c); [|discriminate].
  intros _. now apply IH.
Qed.

Lemma tokens_cons (cur : string) (c : ascii) (r : string) :
  tokens cur (String c r)
  = if isSpaceChar c
    then (if 0 <? length cur then cur :: tokens "" r else tokens "" r)
    else tokens (cur ++ String c "") r.
Proof. reflexivity. Qed.

Lemma tokens_trimEnd (s : string) :
  forall cur, tokens cur (trimEnd s) = tokens cur s.
Proof.
  induction s as [|c r IH]; intro cur; [reflexivity|].
  change (trimEnd (String c r))
    with (match trimEnd r with
          | "" => if isSpaceChar c then "" else String c ""
          | x => String c x
          end).
  destruct (trimEnd r) as [|a r'] eqn:E.
  - pose proof (trimEnd_empty_spaces r E) as Hsp.
    simpl. destruct (isSpaceChar c) eqn:Hc; simpl.
    + rewrite (tokens_spaces r Hsp ""). simpl.
      now destruct (0 <? length cur).
    + rewrite Hc. now rewrite (tokens_spaces r Hsp).
  - rewrite (tokens_cons cur c (String a r')), (tokens_cons cur c r).
    destruct (isSpaceChar c); [destruct (0 <? length cur)|];
      now rewrite <- IH.
Qed.

Lemma quoteWordsOf_tokens (quote : string) :
  quoteWordsOf quote = tokens "" (removeNonWordNonSpace (toLowerCase quote)).
Proof.
  unfold quoteWordsOf, splitWhitespace, clean, trim.
  rewrite (filter_splitAux_tokens _ false "") by discriminate.
  now rewrite tokens_trimEnd, tokens_trimStart.
Qed.

Lemma tokens_append_space (a b : string) (sp : ascii) :
  isSpaceChar sp = true ->
  forall cur, tokens cur (a ++ String sp b) = (tokens cur a ++ tokens "" b)%list.
Proof.
  intro Hsp. induction a as [|c a IH]; intro cur; simpl.
  - rewrite Hsp. now destruct (0 <? length cur).
  - destruct (isSpaceChar c); [destruct (0 <? length cur)|];
      now rewrite IH.
Qed.

Lemma tokens_no_space (t : string) :
  allChars (fun c => negb (isSpaceChar c)) t = true ->
  forall cur, tokens cur t = if 0 <? length (cur ++ t) then [cur ++ t] else [].
Proof.
  induction t as [|c t IH]; intros H cur; simpl.
  - assert (cur ++ "" = cur) as ->
        by (clear; induction cur as [|a cur IH]; simpl; [reflexivity | now rewrite IH]).
    reflexivity.
  - simpl in H. apply andb_true_iff in H as [Hc Ht].
    apply negb_true_iff in Hc. rewrite Hc, (IH Ht).
    now rewrite append_assoc.
Qed.

Lemma tokens_of_word (w : string) :
  isToken (clean w) = true ->
  tokens "" (removeNonWordNonSpace (toLowerCase w)) = [clean w].
Proof.
  unfold isToken, clean, trim. intro H.
  apply andb_true_iff in H as [Hlen Hns].
  rewrite <- tokens_trimStart, <- tokens_trimEnd.
  rewrite (tokens_no_space _ Hns ""). simpl. now rewrite Hlen.
Qed.

Lemma quoteWordsOf_joinWords (l : list string) :
  Forall (fun w => isToken (clean w) = true) l ->
  quoteWordsOf (joinWords l) = List.map clean l.
Proof.
  intro H. rewrite quoteWordsOf_tokens.
  induction H as [|w rest Hw Hrest IH]; [reflexivity|].
  destruct rest as [|w' rest].
  - simpl. now rewrite tokens_of_word.
  - change (joinWords (w :: w' :: rest))
      with (w ++ String " " (joinWords (w' :: rest))).
    unfold removeNonWordNonSpace in *.
    rewrite toLowerCase_append, filter_append.
    change (JsString.filter (fun c => isWordChar c || isSpaceChar c)
              (toLowerCase (String " " (joinWords (w' :: rest)))))
      with (String " "
              (JsString.filter (fun c => isWordChar c || isSpaceChar c)
                 (toLowerCase (joinWords (w' :: rest))))).
    rewrite (tokens_append_space _ _ " " eq_refl), IH.
    fold (removeNonWordNonSpace (toLowerCase w)).
    now rewrite tokens_of_word.
Qed.

Lemma wordsAgree_refl (s : string) : wordsAgree s s = true.
Proof. unfold wordsAgree. now rewrite String.eqb_refl. Qed.

Lemma filter_all {A : Type} (p : A -> bool) (l : list A) :
  (forall x, In x l -> p x = true) -> List.filter p l = l.
Proof.
  induction l as [|x l IH]; intro H; simpl; [reflexivity|].
  rewrite (H x) by now left. f_equal. apply IH.
  intros y Hy. apply H. now right.
Qed.

(** X2. A phrase of the transcript is found: when the quote is made of the
    words [words[i], ..., words[i + k - 1]] of the segment ([k >= 1]),
    written with single spaces between them, and each of these words
    normalizes to one token, [findQuoteInSegment] finds it. *)
Theorem verbatim_phrase_is_found segment i phrase :
  phrase <> [] ->
  firstn (List.length phrase) (skipn i (words (transcript segment))) = phrase ->
  Forall (fun w => isToken (clean (word w)) = true) phrase ->
  found (findQuoteInSegment segment (joinWords (List.map word phrase))) = true.
Proof.
  intros Hne Hphrase Htok.
  set (ws := words (transcript segment)) in *.
  set (quote := joinWords (List.map word phrase)).
  set (quoteWords := List.map (fun w => clean (word w)) phrase).
  assert (quoteWordsOf quote = quoteWords) as Hq.
  { unfold quote, quoteWords. rewrite quoteWordsOf_joinWords.
    - now rewrite map_map.
    - apply Forall_map. exact Htok. }
  assert (forall j, j < List.length phrase ->
                    nth_error ws (i + j) = nth_error phrase j) as Hnth.
  { intros j Hj. rewrite <- Hphrase at 1.
    rewrite nth_error_firstn, nth_error_skipn.
    now destruct (Nat.ltb_spec j (List.length phrase)); [|lia]. }
  assert (0 < List.length phrase) as Hlen
    by (destruct phrase; [contradiction | simpl; lia]).
  assert (quoteWords <> []) as Hqne
    by (unfold quoteWords; destruct phrase; [contradiction | discriminate]).
  assert (acceptsAt ws quoteWords i = true) as Hacc.
  { rewrite (acceptsAt_exact ws quoteWords i Hqne). apply Nat.leb_le.
    rewrite matchCountAt_count.
    assert (List.length quoteWords = List.length phrase) as ->
        by (unfold quoteWords; apply length_map).
    rewrite filter_all.
    - rewrite length_seq. lia.
    - intros j Hj. apply in_seq in Hj. unfold agreesAt, quoteWords.
      rewrite Hnth by lia. rewrite nth_error_map.
      destruct (nth_error phrase j) as [w|] eqn:Ej.
      + simpl. apply wordsAgree_refl.
      + apply nth_error_None in Ej. lia. }
  assert (candidateAcceptedAt ws quoteWords i = true) as Hcand.
  { unfold candidateAcceptedAt.
    pose proof (Hnth 0 Hlen) as H0. rewrite Nat.add_0_r in H0. rewrite H0.
    unfold quoteWords in *. destruct phrase as [|w0 rest]; [contradiction|].
    simpl. unfold isCandidate. rewrite String.eqb_refl. simpl. exact Hacc. }
  assert (ws <> []) as Hws.
  { intro E. apply candidateAcceptedAt_lt in Hcand. rewrite E in Hcand.
    simpl in Hcand. lia. }
  apply (findQuoteInSegment_found_iff segment quote Hws).
  exists i. fold ws. now rewrite Hq.
Qed.

Lemma verbatim_phrase_is_found_witness :
  found (findQuoteInSegment Corpus.segA "hello world, my") = true.
Proof.
  apply (verbatim_phrase_is_found Corpus.segA 2
           [Corpus.spoken "hello" 125; Corpus.spoken "world," 126;
            Corpus.spoken "my" 130]).
  - discriminate.
  - reflexivity.
  - repeat constructor.
Defined.

(** ** Removal of duplicates: what is left *)

Lemma firstOccurrences_fresh rest :
  forall seen x,
    In x (firstOccurrences seen rest) ->
    existsb (isDuplicateOf x) seen = false.
Proof.
  induction rest as [|r rest IH]; intros seen x Hin; simpl in Hin; [contradiction|].
  assert (In x (firstOccurrences (seen ++ [r]) rest) ->
          existsb (isDuplicateOf x) seen = false) as Htail.
  { intro H. apply IH in H. rewrite existsb_app in H.
    now apply orb_false_iff in H as [H _]. }
  destruct (existsb (isDuplicateOf r) seen) eqn:E; [now apply Htail|].
  destruct Hin as [->|Hin]; [exact E | now apply Htail].
Qed.

Lemma firstOccurrences_pairs rest :
  forall seen,
    ForallOrdPairs (fun a b => isDuplicateOf b a = false)
                   (firstOccurrences seen rest).
Proof.
  induction rest as [|r rest IH]; intro seen; simpl; [constructor|].
  destruct (existsb (isDuplicateOf r) seen); [apply IH|].
  constructor; [|apply IH].
  apply Forall_forall. intros b Hb.
  apply firstOccurrences_fresh in Hb. rewrite existsb_app in Hb.
  apply orb_false_iff in Hb as [_ Hb]. simpl in Hb.
  now rewrite orb_false_r in Hb.
Qed.

Lemma firstOccurrences_fixed l :
  forall seen,
    ForallOrdPairs (fun a b => isDuplicateOf b a = false) l ->
    (forall x, In x l -> existsb (isDuplicateOf x) seen = false) ->
    firstOccurrences seen l = l.
Proof.
  induction l as [|r l IH]; intros seen Hpairs Hseen; simpl; [reflexivity|].
  inversion Hpairs as [|? ? Hr Hl]; subst.
  rewrite (Hseen r) by now left. f_equal.
  apply IH; [exact Hl|].
  intros x Hx. rewrite existsb_app. apply orb_false_iff. split.
  - apply Hseen. now right.
  - simpl. rewrite orb_false_r.
    rewrite Forall_forall in Hr. now apply Hr.
Qed.

Lemma not_duplicate_apart a b :
  isDuplicateOf b a = false ->
  r_audioFile a = r_audioFile b ->
  (10 - 2 ^ (-50) <= Qabs (r_timestamp a - r_timestamp b))%Q.
Proof.
  intros H Hfile.
  apply Qnot_lt_le. intro Hlt.
  assert (isDuplicateOf b a = true) as Hdup
    by (apply isDuplicateOf_iff; split; [exact Hfile | exact Hlt]).
  rewrite Hdup in H. discriminate H.
Qed.

(** X3. In what the duplicate filter leaves, any two results with the same
    [audioFile] are at least [10 - 2^-50] apart, the least distance that
    the program's subtraction rounds to 10; filtering once more changes
    nothing. *)
Theorem uniqueResults_apart results :
  ForallOrdPairs
    (fun a b =>
       r_audioFile a = r_audioFile b ->
       (10 - 2 ^ (-50) <= Qabs (r_timestamp a - r_timestamp b))%Q)
    (uniqueResults results)
  /\ uniqueResults (uniqueResults results) = uniqueResults results.
Proof.
  rewrite !uniqueResults_firstOccurrences.
  pose proof (firstOccurrences_pairs results []) as Hpairs.
  split.
  - induction Hpairs as [|a l Ha Hl IH]; constructor; [|exact IH].
    apply Forall_forall. intros b Hb. rewrite Forall_forall in Ha.
    apply not_duplicate_apart. now apply Ha.
  - now apply firstOccurrences_fixed.
Qed.

Lemma firstOccurrences_Subsequence rest :
  forall seen, Subsequence (firstOccurrences seen rest) rest.
Proof.
  induction rest as [|r rest IH]; intro seen; simpl; [constructor|].
  destruct (existsb (isDuplicateOf r) seen); constructor; apply IH.
Qed.

(** X4. The duplicate filter keeps the order of the results it keeps, and
    it always keeps the first result. *)
Theorem uniqueResults_order results :
  Subsequence (uniqueResults results) results
  /\ (forall r rest,
         results = r :: rest ->
         exists rest', uniqueResults results = r :: rest'
                       /\ Subsequence rest' rest).
Proof.
  rewrite uniqueResults_firstOccurrences. split.
  - apply firstOccurrences_Subsequence.
  - intros r rest ->. simpl.
    exists (firstOccurrences [r] rest). split; [reflexivity|].
    apply firstOccurrences_Subsequence.
Qed.

Lemma uniqueResults_order_witness :
  exists rest',
    uniqueResults [Corpus.at_ "a.mp3" 0; Corpus.at_ "a.mp3" 9]
    = Corpus.at_ "a.mp3" 0 :: rest'
    /\ Subsequence rest' [Corpus.at_ "a.mp3" 9].
Proof.
  exact (proj2 (uniqueResults_order
                  [Corpus.at_ "a.mp3" 0; Corpus.at_ "a.mp3" 9])
           (Corpus.at_ "a.mp3" 0) [Corpus.at_ "a.mp3" 9] eq_refl).
Defined.

Lemma uniqueResults_apart_witness :
  uniqueResults
    (uniqueResults [Corpus.at_ "a.mp3" 0; Corpus.at_ "a.mp3" 9;
                    Corpus.at_ "a.mp3" 18])
  = uniqueResults [Corpus.at_ "a.mp3" 0; Corpus.at_ "a.mp3" 9;
                   Corpus.at_ "a.mp3" 18].
Proof.
  exact (proj2 (uniqueResults_apart
                  [Corpus.at_ "a.mp3" 0; Corpus.at_ "a.mp3" 9;
                   Corpus.at_ "a.mp3" 18])).
Defined.

(** ** The validation loop: one result at most for a match *)

Lemma pushCorrected_app segmentMap quote results :
  pushCorrected segmentMap quote results
  = (results ++ pushCorrected segmentMap quote [])%list.
Proof.
  unfold pushCorrected.
  destruct (findSegmentForQuote segmentMap quote) as [[segment ts]|];
    [reflexivity | now rewrite app_nil_r].
Qed.

Lemma validateMatch_app segmentMap results m :
  validateMatch segmentMap results m
  = (results ++ validateMatch segmentMap [] m)%list.
Proof.
  unfold validateMatch.
  destruct (map_get segmentMap (m_audioFile m)) as [claimedSegment|];
    [|apply pushCorrected_app].
  destruct (found (findQuoteInSegment claimedSegment (m_quote m)));
    [reflexivity | apply pushCorrected_app].
Qed.

Lemma validateMatch_one segmentMap m :
  validateMatch segmentMap [] m = []
  \/ exists r, validateMatch segmentMap [] m = [r] /\ r_quote r = m_quote m.
Proof.
  assert (pushCorrected segmentMap (m_quote m) [] = []
          \/ exists r, pushCorrected segmentMap (m_quote m) [] = [r]
                       /\ r_quote r = m_quote m) as Hpush.
  { unfold pushCorrected.
    destruct (findSegmentForQuote segmentMap (m_quote m)) as [[segment ts]|];
      [right | now left].
    eexists. split; reflexivity. }
  unfold validateMatch.
  destruct (map_get segmentMap (m_audioFile m)) as [claimedSegment|];
    [|exact Hpush].
  destruct (found (findQuoteInSegment claimedSegment (m_quote m)));
    [|exact Hpush].
  right. eexists. split; reflexivity.
Qed.

Lemma validateMatches_cons segmentMap m ms :
  validateMatches segmentMap (m :: ms)
  = (validateMatch segmentMap [] m ++ validateMatches segmentMap ms)%list.
Proof.
  unfold validateMatches. simpl.
  generalize (validateMatch segmentMap [] m) as acc.
  assert (forall acc acc',
             fold_left (validateMatch segmentMap) ms (acc' ++ acc)%list
             = (acc' ++ fold_left (validateMatch segmentMap) ms acc)%list) as H.
  { induction ms as [|m' ms IH]; intros acc acc'; simpl; [reflexivity|].
    rewrite (validateMatch_app segmentMap (acc' ++ acc)%list),
      (validateMatch_app segmentMap acc), <- app_assoc.
    apply IH. }
  intro acc. rewrite <- (app_nil_r acc) at 1. apply H.
Qed.

(** X5. The loop pushes at most one result for a match, with the quote of
    that match unchanged, and in the order of the matches: the quotes of the
    results are a subsequence of the quotes of the matches. *)
Theorem validateMatches_quotes segmentMap geminiMatches :
  Subsequence (List.map r_quote (validateMatches segmentMap geminiMatches))
              (List.map m_quote geminiMatches)
  /\ List.length (validateMatches segmentMap geminiMatches)
     <= List.length geminiMatches.
Proof.
  induction geminiMatches as [|m ms [IHs IHl]].
  - split; [constructor | simpl; lia].
  - rewrite validateMatches_cons.
    destruct (validateMatch_one segmentMap m) as [->|(r & -> & Hq)]; simpl.
    + split; [now constructor | lia].
    + rewrite Hq. split; [now constructor | lia].
Qed.

(** ** The loop at run time: when it throws *)

Lemma validateMatchJs_string_quote segmentMap results v :
  hasStringQuote v = true ->
  exists results', validateMatchJs segmentMap results v = inr results'.
Proof.
  destruct v as [| | | | | |properties]; try discriminate.
  simpl hasStringQuote.
  destruct (lookupProperty properties "quote") as [| | | |q| |] eqn:Eq;
    try discriminate.
  intros _. unfold validateMatchJs. cbn [getProperty bind ret].
  rewrite Eq.
  assert (exists results',
             pushCorrectedJs segmentMap (JsString q) results = inr results')
    as Hpush by (rewrite pushCorrectedJs_string; now eexists).
  destruct (lookupProperty properties "audioFile") as [| | | |k| |];
    cbn [map_get_value bind]; try exact Hpush.
  destruct (map_get segmentMap k) as [claimedSegment|];
    cbn [bind findQuoteInSegmentJs ret]; [|exact Hpush].
  destruct (found (findQuoteInSegment claimedSegment q));
    [now eexists | exact Hpush].
Qed.

Lemma findSegmentAmongJs_throws segs quote :
  segs <> [] ->
  (forall q, quote <> JsString q) ->
  findSegmentAmongJs segs quote = inl TypeError.
Proof.
  intros Hne Hq. destruct segs as [|s rest]; [contradiction|].
  simpl. destruct quote; try reflexivity.
  now destruct (Hq s0).
Qed.

Lemma validateMatchJs_other_quote segmentMap results v :
  segmentMap <> [] ->
  hasStringQuote v = false ->
  validateMatchJs segmentMap results v = inl TypeError.
Proof.
  intros Hmap Hv.
  assert (map_values segmentMap <> []) as Hvals
    by (destruct segmentMap; [contradiction | discriminate]).
  assert (forall quote,
             (forall q, quote <> JsString q) ->
             pushCorrectedJs segmentMap quote results = inl TypeError) as Hpush.
  { intros quote Hq. unfold pushCorrectedJs, findSegmentForQuoteJs.
    now rewrite (findSegmentAmongJs_throws _ _ Hvals Hq). }
  unfold validateMatchJs.
  destruct v as [| | | | | |properties]; try reflexivity;
    try (cbn [getProperty bind ret map_get_value]; apply Hpush; discriminate).
  simpl in Hv. cbn [getProperty bind ret].
  assert (forall q, lookupProperty properties "quote" <> JsString q) as Hq.
  { intros q E. rewrite E in Hv. discriminate Hv. }
  destruct (lookupProperty properties "audioFile") as [| | | |k| |];
    cbn [map_get_value bind]; try (now apply Hpush).
  destruct (map_get segmentMap k) as [claimedSegment|];
    cbn [bind]; [|now apply Hpush].
  destruct (lookupProperty properties "quote") as [| | | |q| |];
    try reflexivity.
  now destruct (Hq q).
Qed.

Lemma validateMatchesJs_completes segmentMap elements :
  Forall (fun v => hasStringQuote v = true) elements ->
  forall results,
  exists results', validateMatchesJs segmentMap results elements = inr results'.
Proof.
  induction 1 as [|v rest Hv Hrest IH]; intro results; simpl.
  - now eexists.
  - destruct (validateMatchJs_string_quote segmentMap results v Hv)
      as [results1 ->].
    simpl. apply IH.
Qed.

Lemma validateMatchesJs_throws segmentMap elements :
  segmentMap <> [] ->
  Exists (fun v => hasStringQuote v = false) elements ->
  forall results,
  validateMatchesJs segmentMap results elements = inl TypeError.
Proof.
  intros Hmap. induction 1 as [v rest Hv|v rest Hrest IH]; intro results; simpl.
  - now rewrite (validateMatchJs_other_quote segmentMap results v Hmap Hv).
  - destruct (hasStringQuote v) eqn:Hv.
    + destruct (validateMatchJs_string_quote segmentMap results v Hv)
        as [results1 ->].
      simpl. apply IH.
    + now rewrite (validateMatchJs_other_quote segmentMap results v Hmap Hv).
Qed.

(** X6. When the manifest has a segment and [JSON.parse] returns an array,
    the handler answers 200 exactly when every element of the array is an
    object whose [quote] is a string; any other element ([null], a number,
    an object without a string under [quote]) makes it answer 500. *)
Theorem handler_status JSON_parse manifest text_ elements :
  buildSegmentMap manifest <> [] ->
  JSON_parse (cleanResponse (orEmptyArray text_)) = inr (JsArray elements) ->
  (status (handler JSON_parse manifest text_) = 200
   <-> Forall (fun v => hasStringQuote v = true) elements)
  /\ (status (handler JSON_parse manifest text_) = 500
      <-> Exists (fun v => hasStringQuote v = false) elements).
Proof.
  intros Hmap Hparse.
  rewrite handler_of_matches. unfold parseMatches. rewrite Hparse.
  destruct (Forall_Exists_dec (fun v => hasStringQuote v = true)
              (fun v => bool_dec (hasStringQuote v) true) elements)
    as [Hall|Hex].
  - destruct (validateMatchesJs_completes (buildSegmentMap manifest) _ Hall [])
      as [results ->].
    simpl. split; split; try tauto; try discriminate.
    intro Hex. exfalso.
    apply Exists_exists in Hex as (v & Hin & Hv).
    rewrite Forall_forall in Hall. rewrite (Hall v Hin) in Hv. discriminate.
  - assert (Exists (fun v => hasStringQuote v = false) elements) as Hex'.
    { apply Exists_exists in Hex as (v & Hin & Hv).
      apply Exists_exists. exists v. split; [exact Hin|].
      now destruct (hasStringQuote v). }
    rewrite (validateMatchesJs_throws (buildSegmentMap manifest) _ Hmap Hex' []).
    simpl. split; split; try tauto; try discriminate.
    intro Hall. exfalso.
    apply Exists_exists in Hex' as (v & Hin & Hv).
    rewrite Forall_forall in Hall. rewrite (Hall v Hin) in Hv. discriminate.
Qed.

Lemma handler_status_witness :
  status (handler (Corpus.parseAs (mkGeminiMatch "a.mp3" "he said" "childhood"))
            Corpus.manifest (Some "[...]")) = 200.
Proof.
  assert (buildSegmentMap Corpus.manifest <> []) as Hmap by discriminate.
  apply (proj1 (handler_status
                  (Corpus.parseAs (mkGeminiMatch "a.mp3" "he said" "childhood"))
                  Corpus.manifest (Some "[...]")
                  [jsOfMatch (mkGeminiMatch "a.mp3" "he said" "childhood")]
                  Hmap eq_refl)).
  repeat constructor.
Defined.

(** ** The manifest: listing, lookup and the segment map *)

Lemma find_app {A : Type} (p : A -> bool) (l1 l2 : list A) :
  find p (l1 ++ l2)
  = match find p l1 with
    | Some x => Some x
    | None => find p l2
    end.
Proof.
  induction l1 as [|x l1 IH]; simpl; [reflexivity|].
  now destruct (p x).
Qed.

Lemma transcriptAmongSegments_find segs file :
  transcriptAmongSegments segs file
  = option_map withOffset (find (hasAudioFile file) segs).
Proof.
  induction segs as [|s rest IH]; simpl; [reflexivity|].
  unfold hasAudioFile at 1. now destruct (audioFile s =? file)%string.
Qed.

Lemma getTranscriptByAudioFile_find manifest file :
  getTranscriptByAudioFile manifest file
  = option_map withOffset (find (hasAudioFile file) (allSegments manifest)).
Proof.
  unfold getTranscriptByAudioFile, allSegments.
  induction (sessions manifest) as [|session rest IH]; simpl; [reflexivity|].
  rewrite find_app, transcriptAmongSegments_find.
  now destruct (find (hasAudioFile file) (segments session)).
Qed.

Lemma buildSegmentMap_fold manifest :
  buildSegmentMap manifest
  = fold_left (fun m segment => map_set m (audioFile segment) segment)
              (allSegments manifest) [].
Proof.
  unfold buildSegmentMap, allSegments.
  generalize (@nil (string * Segment)) as m.
  induction (sessions manifest) as [|session rest IH]; intro m; simpl;
    [reflexivity|].
  now rewrite fold_left_app, IH.
Qed.

Lemma map_get_set m k v k' :
  map_get (map_set m k v) k'
  = if (k =? k')%string then Some v else map_get m k'.
Proof.
  induction m as [|[k0 v0] r IH]; simpl.
  - reflexivity.
  - destruct (k0 =? k)%string eqn:E0; simpl.
    + apply String.eqb_eq in E0 as ->. now destruct (k =? k')%string.
    + rewrite IH. destruct (k0 =? k')%string eqn:E1; [|reflexivity].
      apply String.eqb_eq in E1 as ->. now rewrite String.eqb_sym, E0.
Qed.

Lemma map_get_fold segs :
  forall m file,
    map_get (fold_left (fun m' segment => map_set m' (audioFile segment) segment)
                       segs m) file
    = match find (hasAudioFile file) (rev segs) with
      | Some segment => Some segment
      | None => map_get m file
      end.
Proof.
  induction segs as [|s rest IH]; intros m file; simpl; [reflexivity|].
  rewrite IH, find_app, map_get_set. simpl find.
  destruct (find (hasAudioFile file) (rev rest)); [reflexivity|].
  unfold hasAudioFile. now destruct (audioFile s =? file)%string.
Qed.

Lemma segmentMap_get_find manifest file :
  map_get (buildSegmentMap manifest) file
  = find (hasAudioFile file) (rev (allSegments manifest)).
Proof.
  rewrite buildSegmentMap_fold, map_get_fold. simpl.
  now destruct (find (hasAudioFile file) (rev (allSegments manifest))).
Qed.

(** X7. [segmentMap.get(file)] is the last segment of the manifest, over all
    sessions, whose [audioFile] is [file], and [undefined] when there is
    none; [getTranscriptByAudioFile(file)] is the transcript and start time
    of the first such segment, and [null] when there is none. *)
Theorem lookup_first_and_last manifest file :
  map_get (buildSegmentMap manifest) file
  = find (hasAudioFile file) (rev (allSegments manifest))
  /\ getTranscriptByAudioFile manifest file
     = option_map withOffset (find (hasAudioFile file) (allSegments manifest)).
Proof.
  split; [|apply getTranscriptByAudioFile_find].
  rewrite buildSegmentMap_fold, map_get_fold. simpl.
  now destruct (find (hasAudioFile file) (rev (allSegments manifest))).
Qed.

Lemma getAllSegments_files manifest :
  List.map s_audioFile (getAllSegments manifest)
  = List.map audioFile (allSegments manifest).
Proof.
  unfold getAllSegments, allSegments.
  assert (forall ss listed,
             List.map s_audioFile
               (fold_left
                  (fun listed0 session =>
                     fold_left
                       (fun listed' segment =>
                          (listed'
                           ++ [mkSegmentWithSession (audioFile segment)
                                 (sessionId session)
                                 (subject (metadata segment))
                                 (description (metadata segment))
                                 (duration (metadata segment))
                                 (segmentIndex (metadata segment))])%list)
                       (segments session) listed0)
                  ss listed)
             = (List.map s_audioFile listed
                ++ List.map audioFile (flat_map segments ss))%list) as H.
  { induction ss as [|session rest IH]; intro listed; simpl.
    - now rewrite app_nil_r.
    - rewrite IH, map_app, app_assoc. f_equal.
      generalize listed.
      induction (segments session) as [|s segs IHs]; intro acc; simpl.
      + now rewrite app_nil_r.
      + rewrite IHs, map_app, <- app_assoc. reflexivity. }
  apply (H (sessions manifest) []).
Qed.

Lemma find_hasAudioFile_In file segs :
  find (hasAudioFile file) segs <> None
  <-> In file (List.map audioFile segs).
Proof.
  induction segs as [|s rest IH]; simpl.
  - split; [congruence | contradiction].
  - unfold hasAudioFile at 1.
    destruct (audioFile s =? file)%string eqn:E.
    + apply String.eqb_eq in E. split; [now left | congruence].
    + apply String.eqb_neq in E. rewrite IH. split; [now right|].
      intros [H|H]; [contradiction | exact H].
Qed.

Lemma listed_iff_transcript manifest file :
  In file (List.map s_audioFile (getAllSegments manifest))
  <-> getTranscriptByAudioFile manifest file <> None.
Proof.
  rewrite getAllSegments_files, getTranscriptByAudioFile_find,
    <- find_hasAudioFile_In.
  destruct (find (hasAudioFile file) (allSegments manifest)); simpl;
    split; congruence.
Qed.

(** X8. The listing, the lookup of a transcript and the segment map of the
    search know the same audio files: [file] is the [audioFile] of an entry
    of [getAllSegments()] exactly when [getTranscriptByAudioFile(file)] is
    not [null], and exactly when [segmentMap.get(file)] is defined. *)
Theorem same_audio_files manifest file :
  (In file (List.map s_audioFile (getAllSegments manifest))
   <-> getTranscriptByAudioFile manifest file <> None)
  /\ (In file (List.map s_audioFile (getAllSegments manifest))
      <-> map_get (buildSegmentMap manifest) file <> None).
Proof.
  rewrite getAllSegments_files, segmentMap_get_find,
    getTranscriptByAudioFile_find.
  split.
  - rewrite <- find_hasAudioFile_In.
    destruct (find (hasAudioFile file) (allSegments manifest)); simpl;
      split; congruence.
  - rewrite <- find_hasAudioFile_In, find_hasAudioFile_In,
      find_hasAudioFile_In, map_rev.
    apply in_rev.
Qed.

Lemma find_unique file segs s :
  NoDup (List.map audioFile segs) ->
  In s segs -> audioFile s = file ->
  find (hasAudioFile file) segs = Some s.
Proof.
  induction segs as [|x rest IH]; intros Hnd Hin Hfile; simpl; [contradiction|].
  inversion Hnd as [|? ? Hnotin Hrest]; subst.
  unfold hasAudioFile at 1.
  destruct Hin as [->|Hin]; [now rewrite String.eqb_refl|].
  destruct (audioFile x =? audioFile s)%string eqn:E; [|now apply IH].
  apply String.eqb_eq in E. exfalso. apply Hnotin. rewrite E.
  now apply in_map.
Qed.

(** X9. When no two segments of the manifest have the same [audioFile], the
    transcript endpoint's lookup and the search's segment map give the same
    segment for every file. *)
Theorem lookups_agree manifest file :
  NoDup (List.map audioFile (allSegments manifest)) ->
  getTranscriptByAudioFile manifest file
  = option_map withOffset (map_get (buildSegmentMap manifest) file).
Proof.
  intro Hnd.
  rewrite segmentMap_get_find, getTranscriptByAudioFile_find.
  destruct (find (hasAudioFile file) (rev (allSegments manifest))) as [s|] eqn:E.
  - apply find_some in E as [Hin Hfile].
    apply in_rev in Hin. unfold hasAudioFile in Hfile.
    apply String.eqb_eq in Hfile.
    now rewrite (find_unique file _ s Hnd Hin Hfile).
  - destruct (find (hasAudioFile file) (allSegments manifest)) as [s|] eqn:E';
      [|reflexivity].
    apply find_some in E' as [Hin Hfile].
    apply in_rev in Hin.
    now rewrite (find_none _ _ E s Hin) in Hfile.
Qed.

Lemma lookups_agree_witness :
  getTranscriptByAudioFile Corpus.manifest "b.mp3"
  = option_map withOffset (map_get (buildSegmentMap Corpus.manifest) "b.mp3").
Proof.
  apply (lookups_agree Corpus.manifest "b.mp3").
  repeat constructor; simpl; intuition discriminate.
Defined.

(** X10. Once [getManifest] has returned a manifest, every later call
    returns that manifest again, whatever the file then holds or whether it
    can still be read; a call that throws leaves the cache empty, so that
    the next call reads the file again. *)
Theorem getManifest_cache cachedManifest readManifest :
  (forall manifest,
      fst (getManifest cachedManifest readManifest) = inr manifest ->
      forall readLater,
        getManifest (snd (getManifest cachedManifest readManifest)) readLater
        = (inr manifest, Some manifest))
  /\ (forall e,
         fst (getManifest cachedManifest readManifest) = inl e ->
         snd (getManifest cachedManifest readManifest) = None
         /\ forall readLater,
             fst (getManifest (snd (getManifest cachedManifest readManifest))
                    readLater)
             = readLater).
Proof.
  unfold getManifest, ret, throw.
  destruct cachedManifest as [cached|]; simpl.
  - split; [|discriminate].
    intros manifest H readLater. now injection H as <-.
  - destruct readManifest as [e0|m0]; simpl; split; try discriminate.
    + intros e _. split; [reflexivity|].
      now intros [e'|m'].
    + intros manifest H readLater. now injection H as <-.
Qed.

Lemma getManifest_cache_witness :
  getManifest (snd (getManifest None (inr Corpus.manifest))) (inl SyntaxError)
  = (inr Corpus.manifest, Some Corpus.manifest)
  /\ fst (getManifest (snd (getManifest None (inl SyntaxError)))
            (inr Corpus.manifest))
     = inr Corpus.manifest.
Proof.
  split.
  - exact (proj1 (getManifest_cache None (inr Corpus.manifest))
             Corpus.manifest eq_refl (inl SyntaxError)).
  - exact (proj2 (proj2 (getManifest_cache None (inl SyntaxError))
                    SyntaxError eq_refl)
             (inr Corpus.manifest)).
Defined.

(** ** The transcript endpoint *)

Lemma length_zero_empty (s : string) : (length s =? 0) = true <-> s = "".
Proof.
  destruct s; simpl; split; try reflexivity; discriminate.
Qed.

Lemma getTranscriptByAudioFile_Some manifest file result :
  getTranscriptByAudioFile manifest file = Some result ->
  exists segment,
    In segment (allSegments manifest) /\ audioFile segment = file
    /\ transcript segment = t_transcript result
    /\ startTime (metadata segment) = t_startTime result.
Proof.
  rewrite getTranscriptByAudioFile_find.
  destruct (find (hasAudioFile file) (allSegments manifest)) as [s|] eqn:E;
    [|discriminate].
  simpl. intro H. injection H as <-.
  apply find_some in E as [Hin Hfile]. unfold hasAudioFile in Hfile.
  apply String.eqb_eq in Hfile.
  exists s. now repeat split.
Qed.

(** X11. The transcript endpoint answers 200 exactly to a GET whose
    [audioFile] parameter is one non-empty string that the listing of
    [getAllSegments] has, the manifest being readable; its body then is the
    transcript and start time of a segment of that name. It answers 404
    exactly to such a GET for a name the listing does not have. *)
Theorem transcript_endpoint_status method param manifest :
  (code (TranscriptApi.handler method param manifest) = 200
   <-> method = "GET"
       /\ exists file m,
           param = QueryString file /\ file <> ""
           /\ manifest = inr m
           /\ In file (List.map s_audioFile (getAllSegments m)))
  /\ (code (TranscriptApi.handler method param manifest) = 404
      <-> method = "GET"
          /\ exists file m,
              param = QueryString file /\ file <> ""
              /\ manifest = inr m
              /\ ~ In file (List.map s_audioFile (getAllSegments m)))
  /\ (forall t st,
         content (TranscriptApi.handler method param manifest)
         = TranscriptApi.Data t st ->
         exists file m segment,
           param = QueryString file /\ manifest = inr m
           /\ In segment (allSegments m) /\ audioFile segment = file
           /\ transcript segment = t /\ startTime (metadata segment) = st).
Proof.
  unfold TranscriptApi.handler.
  destruct (method =? "GET")%string eqn:Em; simpl.
  2:{ apply String.eqb_neq in Em.
      split; [|split]; [split | split | discriminate];
        first [discriminate | intros [H _]; contradiction]. }
  apply String.eqb_eq in Em.
  destruct param as [|file|values]; simpl;
    try (split; [|split]; [split | split | discriminate];
         first [discriminate | intros (_ & f & m & H & _); discriminate H]).
  destruct (length file =? 0) eqn:El; simpl.
  { apply length_zero_empty in El.
    split; [|split]; [split | split | discriminate];
      first [discriminate
            | intros (_ & f & m & H & Hne & _); injection H as <-;
              contradiction]. }
  assert (file <> "") as Hne
    by (intro E; apply length_zero_empty in E; congruence).
  destruct manifest as [e|m]; simpl.
  { split; [|split]; [split | split | discriminate];
      first [discriminate
            | intros (_ & f & m & _ & _ & H & _); discriminate H]. }
  pose proof (listed_iff_transcript m file) as Hlisted.
  destruct (getTranscriptByAudioFile m file) as [result|] eqn:Eg; simpl.
  - assert (In file (List.map s_audioFile (getAllSegments m))) as Hin
        by (apply Hlisted; discriminate).
    split; [|split]; [split | split |].
    + intros _. split; [exact Em|]. now exists file, m.
    + reflexivity.
    + discriminate.
    + intros (_ & f & m' & H & _ & Hm & Hnot).
      injection H as <-. injection Hm as <-. contradiction.
    + intros t st H. injection H as <- <-.
      destruct (getTranscriptByAudioFile_Some m file result Eg)
        as (segment & Hs & Hf & Ht & Hst).
      now exists file, m, segment.
  - assert (~ In file (List.map s_audioFile (getAllSegments m))) as Hnot
        by (intro Hin; apply Hlisted in Hin; contradiction).
    split; [|split]; [split | split | discriminate].
    + discriminate.
    + intros (_ & f & m' & H & _ & Hm & Hin).
      injection H as <-. injection Hm as <-. contradiction.
    + intros _. split; [exact Em|]. now exists file, m.
    + reflexivity.
Qed.

Lemma transcript_endpoint_status_witness :
  code (TranscriptApi.handler "GET" (QueryString "b.mp3")
          (inr Corpus.manifest)) = 200
  /\ code (TranscriptApi.handler "GET" (QueryString "z.mp3")
             (inr Corpus.manifest)) = 404.
Proof.
  split.
  - apply (proj1 (transcript_endpoint_status "GET" (QueryString "b.mp3")
                    (inr Corpus.manifest))).
    split; [reflexivity|].
    exists "b.mp3", Corpus.manifest.
    repeat split; [discriminate | vm_compute; tauto].
  - apply (proj1 (proj2 (transcript_endpoint_status "GET"
                           (QueryString "z.mp3") (inr Corpus.manifest)))).
    split; [reflexivity|].
    exists "z.mp3", Corpus.manifest.
    repeat split; [discriminate | vm_compute; intuition discriminate].
Defined.

(** ** The password *)

(** X12. The password endpoint answers 200, and [success: true], only to a
    POST whose body is an object with the string "countdown" under
    [password]; every other request that it answers gets [success: false]
    with 405 (not a POST) or 401. *)
Theorem auth_endpoint_success method body reply :
  AuthApi.handler method body = inr reply ->
  (content reply = true <-> code reply = 200)
  /\ (code reply = 200
      <-> method = "POST"
          /\ exists properties,
              body = JsObject properties
              /\ lookupProperty properties "password" = JsString "countdown")
  /\ (code reply <> 200 ->
      (method <> "POST" /\ code reply = 405)
      \/ (method = "POST" /\ code reply = 401)).
Proof.
  unfold AuthApi.handler.
  destruct (method =? "POST")%string eqn:Em; simpl.
  2:{ apply String.eqb_neq in Em. intro H. injection H as <-. simpl.
      split; [|split].
      - split; discriminate.
      - split; [discriminate | intros [H _]; contradiction].
      - intros _. now left. }
  apply String.eqb_eq in Em.
  assert (forall r : Reply bool,
             (forall properties,
                 body = JsObject properties ->
                 lookupProperty properties "password" <> JsString "countdown") ->
             @inr Exception _ (mkReply 401 false) = inr r ->
             (content r = true <-> code r = 200)
             /\ (code r = 200
                 <-> method = "POST"
                     /\ exists properties,
                         body = JsObject properties
                         /\ lookupProperty properties "password"
                            = JsString "countdown")
             /\ (code r <> 200 ->
                 (method <> "POST" /\ code r = 405)
                 \/ (method = "POST" /\ code r = 401))) as Hrefused.
  { intros r Hbody H. injection H as <-. simpl.
    split; [|split].
    - split; discriminate.
    - split; [discriminate|].
      intros (_ & p & Hb & Hp). exfalso. exact (Hbody p Hb Hp).
    - intros _. now right. }
  destruct body as [| | | | | |properties]; simpl; try discriminate;
    try (apply Hrefused; intros p Hb; discriminate Hb).
  unfold AuthApi.isSitePassword.
  destruct (lookupProperty properties "password") as [| | | |s| |] eqn:Ep;
    try (apply Hrefused; intros p Hb; injection Hb as <-; rewrite Ep;
         discriminate).
  destruct (s =? AuthApi.SITE_PASSWORD)%string eqn:Es.
  - apply String.eqb_eq in Es. subst s.
    intro H. injection H as <-. simpl.
    split; [|split].
    + split; reflexivity.
    + split; [|reflexivity].
      intros _. split; [exact Em|]. now exists properties.
    + intro H. contradiction.
  - apply String.eqb_neq in Es.
    apply Hrefused. intros p Hb. injection Hb as <-. rewrite Ep.
    intro H. injection H as ->. now apply Es.
Qed.

Lemma auth_endpoint_success_witness :
  code (mkReply 200 true) = 200
  <-> "POST" = "POST"
      /\ exists properties,
          JsObject [("password", JsString "countdown")] = JsObject properties
          /\ lookupProperty properties "password" = JsString "countdown".
Proof.
  exact (proj1 (proj2 (auth_endpoint_success "POST"
                         (JsObject [("password", JsString "countdown")])
                         (mkReply 200 true) eq_refl))).
Defined.

Lemma authEndpoint_ok (p : string) :
  match PasswordGate.authEndpoint (JsObject [("password", JsString p)]) with
  | Some status => PasswordGate.ok status = true <-> p = "countdown"
  | None => False
  end.
Proof.
  unfold PasswordGate.authEndpoint, AuthApi.handler. simpl.
  destruct (p =? AuthApi.SITE_PASSWORD)%string eqn:E; simpl.
  - apply String.eqb_eq in E. now split.
  - apply String.eqb_neq in E. split; [discriminate | contradiction].
Qed.

Lemma getItem_setItem storage key value :
  PasswordGate.getItem (PasswordGate.setItem storage key value) key
  = Some value.
Proof.
  induction storage as [|[k v] rest IH]; simpl.
  - now rewrite String.eqb_refl.
  - destruct (k =? key)%string eqn:E; simpl.
    + now rewrite String.eqb_refl.
    + now rewrite E.
Qed.

(** X13. With the password endpoint behind [fetch], submitting the form
    shows the children exactly when the password typed is "countdown"; the
    flag then stored in [sessionStorage] makes the next mount show them
    without a form. A wrong password leaves the form with the message
    "Incorrect password", the field emptied and the storage untouched. *)
Theorem password_gate_opens sessionStorage st :
  PasswordGate.isAuthenticated st = Some false ->
  let after := PasswordGate.handleSubmit PasswordGate.authEndpoint
                 sessionStorage st in
  (PasswordGate.render (fst after) = PasswordGate.Children
   <-> PasswordGate.password st = "countdown")
  /\ (PasswordGate.password st = "countdown" ->
      PasswordGate.render (PasswordGate.mount (snd after) PasswordGate.initial)
      = PasswordGate.Children)
  /\ (PasswordGate.password st <> "countdown" ->
      after = (PasswordGate.mkState (Some false) "" "Incorrect password" false,
               sessionStorage)).
Proof.
  intros Hst after. unfold after, PasswordGate.handleSubmit.
  pose proof (authEndpoint_ok (PasswordGate.password st)) as Hok.
  destruct (PasswordGate.authEndpoint
              (JsObject [("password", JsString (PasswordGate.password st))]))
    as [status|]; [|contradiction].
  destruct (PasswordGate.ok status) eqn:E.
  - assert (PasswordGate.password st = "countdown") as Hp by now apply Hok.
    cbn [fst snd]. split; [|split].
    + split; [intros _; exact Hp | reflexivity].
    + intros _. unfold PasswordGate.render, PasswordGate.mount.
      cbn [PasswordGate.isAuthenticated].
      now rewrite getItem_setItem.
    + intro H. contradiction.
  - assert (PasswordGate.password st <> "countdown") as Hp
        by (intro H; apply Hok in H; congruence).
    cbn [fst snd]. split; [|split].
    + unfold PasswordGate.render. cbn [PasswordGate.isAuthenticated].
      rewrite Hst. split; [discriminate | contradiction].
    + contradiction.
    + intros _. now rewrite Hst.
Qed.

Lemma password_gate_opens_witness :
  PasswordGate.render
    (fst (PasswordGate.handleSubmit PasswordGate.authEndpoint []
            (PasswordGate.mkState (Some false) "countdown" "" false)))
  = PasswordGate.Children
  /\ PasswordGate.handleSubmit PasswordGate.authEndpoint []
       (PasswordGate.mkState (Some false) "guess" "" false)
     = (PasswordGate.mkState (Some false) "" "Incorrect password" false, []).
Proof.
  split.
  - apply (proj1 (password_gate_opens []
                    (PasswordGate.mkState (Some false) "countdown" "" false)
                    eq_refl)).
    reflexivity.
  - apply (proj2 (proj2 (password_gate_opens []
                    (PasswordGate.mkState (Some false) "guess" "" false)
                    eq_refl))).
    discriminate.
Defined.

(** ** [formatTime] *)

Lemma Qfloor_div_60 (x : Q) : Qfloor (x / 60) = (Qfloor x / 60)%Z.
Proof.
  destruct x as [p q]. unfold Qdiv, Qmult, Qinv, Qfloor. simpl.
  rewrite Z.mul_1_r.
  change (Z.pos (q * 60)) with (Z.pos q * 60)%Z.
  symmetry. apply Z.div_div; lia.
Qed.

Lemma Qfloor_sub_60 (x : Q) (k : Z) :
  Qfloor (x - 60 * inject_Z k) = (Qfloor x - 60 * k)%Z.
Proof.
  assert (x - 60 * inject_Z k == x + inject_Z (- (60 * k)))%Q as ->.
  { unfold Qeq, Qminus, Qplus, Qopp, Qmult, inject_Z. simpl. reflexivity. }
  destruct x as [p q]. unfold Qplus, Qfloor, inject_Z. simpl.
  rewrite Pos.mul_1_r, Z.mul_1_r, Z.div_add by lia. lia.
Qed.

Lemma formatTime_parts (seconds : Q) :
  (0 <= seconds)%Q ->
  Math_floor (seconds / 60) = (Qfloor seconds / 60)%Z
  /\ Math_floor (remainder seconds 60) = (Qfloor seconds mod 60)%Z.
Proof.
  intro Hpos. unfold Math_floor. split; [apply Qfloor_div_60|].
  unfold remainder.
  assert (Qle_bool 0 (seconds / 60) = true) as ->.
  { apply Qle_bool_iff. apply Qle_shift_div_l; [reflexivity|].
    now rewrite Qmult_0_l. }
  rewrite Qfloor_sub_60, Qfloor_div_60.
  rewrite Z.mod_eq by lia. reflexivity.
Qed.

Lemma two_digits (s : Z) :
  (0 <= s < 60)%Z ->
  padStart 2 "0" (numberToString s)
  = String (digitChar (s / 10)) (String (digitChar (s mod 10)) "").
Proof.
  intro Hs.
  assert (exists k, k < 60 /\ s = Z.of_nat k) as (k & Hk & ->)
    by (exists (Z.to_nat s); lia).
  clear Hs.
  do 60 (destruct k as [|k]; [reflexivity|]). lia.
Qed.

(** X14. For a time from 0 to below [2^52] seconds, [formatTime] (and
    [formatDuration], which is the same function) writes the whole minutes,
    not wrapped into hours, a colon, and the whole seconds left as exactly
    two digits below 60. *)
Theorem formatTime_shape (seconds : Q) :
  (0 <= seconds)%Q ->
  (seconds < 2 ^ 52)%Q ->
  let whole := Qfloor seconds in
  formatTime seconds
  = numberToString (whole / 60) ++ ":"
    ++ String (digitChar ((whole mod 60) / 10))
         (String (digitChar ((whole mod 60) mod 10)) "")
  /\ formatDuration seconds = formatTime seconds
  /\ (0 <= whole mod 60 < 60)%Z.
Proof.
  intros Hpos _ whole.
  destruct (formatTime_parts seconds Hpos) as [Hm Hs].
  assert (0 <= whole mod 60 < 60)%Z as Hr by (apply Z.mod_pos_bound; lia).
  split; [|split; [reflexivity | exact Hr]].
  unfold formatTime. rewrite Hm, Hs. fold whole.
  now rewrite (two_digits _ Hr).
Qed.

Lemma formatTime_shape_witness :
  formatTime (1199 # 10) = "1:59".
Proof.
  assert (0 <= 1199 # 10)%Q as Hpos by discriminate.
  assert (1199 # 10 < 2 ^ 52)%Q as Hbound by reflexivity.
  exact (proj1 (formatTime_shape (1199 # 10) Hpos Hbound)).
Defined.

Lemma numberToString_inj (a b : Z) :
  numberToString a = numberToString b -> a = b.
Proof.
  unfold numberToString. intro H.
  assert (forall z, NilZero.int_of_string (NilZero.string_of_int (Z.to_int z))
                    = Some (Z.to_int z)) as Hparse.
  { intro z. apply NilZero.isi; destruct z; simpl; try discriminate;
      intro E; injection E as E;
      exact (DecimalPos.Unsigned.to_uint_nonnil _ E). }
  apply DecimalZ.to_int_inj.
  pose proof (Hparse a) as Ha. rewrite H, Hparse in Ha.
  now injection Ha.
Qed.

Lemma append_same_tail_length (a b s t : string) :
  length s = length t -> a ++ s = b ++ t -> a = b /\ s = t.
Proof.
  intro Hlen. revert b.
  induction a as [|c a IH]; intros [|d b] H; simpl in H.
  - now split.
  - exfalso. subst s. simpl in Hlen. rewrite length_append in Hlen. lia.
  - exfalso. subst t. simpl in Hlen. rewrite length_append in Hlen. lia.
  - injection H as -> H. destruct (IH b H) as [-> ->]. now split.
Qed.

Lemma digitChar_inj (a b : Z) :
  (0 <= a < 10)%Z -> (0 <= b < 10)%Z -> digitChar a = digitChar b -> a = b.
Proof.
  unfold digitChar. intros Ha Hb H.
  apply (f_equal nat_of_ascii) in H.
  rewrite !nat_ascii_embedding in H by lia. lia.
Qed.

(** X15. Two times that are not negative get the same text from
    [formatTime] exactly when they have the same whole seconds. *)
Theorem formatTime_whole_seconds (a b : Q) :
  (0 <= a)%Q -> (0 <= b)%Q ->
  (formatTime a = formatTime b <-> Qfloor a = Qfloor b).
Proof.
  intros Ha Hb.
  assert (forall s : Q,
             (0 <= s)%Q ->
             formatTime s
             = numberToString (Qfloor s / 60) ++ ":"
               ++ String (digitChar ((Qfloor s mod 60) / 10))
                    (String (digitChar ((Qfloor s mod 60) mod 10)) ""))
    as Hshape.
  { intros s Hs. destruct (formatTime_parts s Hs) as [Hm Hr].
    unfold formatTime. rewrite Hm, Hr.
    now rewrite two_digits by (apply Z.mod_pos_bound; lia). }
  pose proof (Z.mod_pos_bound (Qfloor a) 60 ltac:(lia)) as Ra.
  pose proof (Z.mod_pos_bound (Qfloor b) 60 ltac:(lia)) as Rb.
  rewrite (Hshape a Ha), (Hshape b Hb). split; [|now intros ->].
  intro H.
  apply append_same_tail_length in H as [Hm Hs]; [|reflexivity].
  apply numberToString_inj in Hm.
  injection Hs as H1 H0.
  apply digitChar_inj in H1;
    [|split; [apply Z.div_pos; lia | apply Z.div_lt_upper_bound; lia] ..].
  apply digitChar_inj in H0; [|apply Z.mod_pos_bound; lia ..].
  assert (Qfloor a mod 60 = Qfloor b mod 60)%Z as Hr.
  { rewrite (Z.div_mod (Qfloor a mod 60) 10), (Z.div_mod (Qfloor b mod 60) 10)
      by lia.
    now rewrite H1, H0. }
  rewrite (Z.div_mod (Qfloor a) 60), (Z.div_mod (Qfloor b) 60) by lia.
  now rewrite Hm, Hr.
Qed.

Lemma formatTime_whole_seconds_witness :
  formatTime (1199 # 10) = formatTime 119.
Proof.
  assert (0 <= 1199 # 10)%Q as Ha by discriminate.
  assert (0 <= 119)%Q as Hb by discriminate.
  apply (proj2 (formatTime_whole_seconds (1199 # 10) 119 Ha Hb)).
  reflexivity.
Defined.

(** ** [Subtitles]: the current word *)

Lemma Qle_bool_false (a b : Q) : Qle_bool a b = false <-> (b < a)%Q.
Proof.
  split.
  - intro H. apply Qnot_le_lt. intro Hle. apply Qle_bool_iff in Hle. congruence.
  - intro H. destruct (Qle_bool a b) eqn:E; [|reflexivity].
    apply Qle_bool_iff in E. exfalso. exact (Qlt_not_le _ _ H E).
Qed.

Lemma currentWordLoop_from (t : Q) (rest : list Word) :
  forall (i : Z),
    (1 <= i)%Z ->
    match rest with
    | w :: _ => (start w <= t)%Q
    | [] => True
    end ->
    (rest = [] /\ Subtitles.currentWordLoop t rest i (i - 1) = (i - 1)%Z)
    \/ exists k w,
        Subtitles.currentWordLoop t rest i (i - 1) = (i + Z.of_nat k)%Z
        /\ currentAt t rest k w.
Proof.
  induction rest as [|w rest IH]; intros i Hi Hhead; [now left|].
  right. simpl.
  destruct (Qle_bool (start w) t && Qle_bool t (end_ w)) eqn:Ewithin.
  { apply andb_true_iff in Ewithin as [H1 H2].
    apply Qle_bool_iff in H1, H2.
    exists 0, w. split; [lia|]. split; [reflexivity|]. now left. }
  assert (end_ w < t)%Q as Hended.
  { apply andb_false_iff in Ewithin as [H|H].
    - apply Qle_bool_false in H. exfalso. exact (Qlt_not_le _ _ H Hhead).
    - now apply Qle_bool_false in H. }
  destruct rest as [|nextWord rest'].
  - assert ((i =? 0)%Z = false) as -> by (apply Z.eqb_neq; lia).
    simpl. apply Qle_bool_iff in Hhead. rewrite Hhead.
    exists 0, w. split; [lia|]. split; [reflexivity|]. right. now split.
  - destruct (Qltb (end_ w) t && Qltb t (start nextWord)) eqn:Egap.
    { apply andb_true_iff in Egap as [_ H2]. apply Qltb_lt in H2.
      exists 0, w. split; [lia|]. split; [reflexivity|]. right. now split. }
    assert (start nextWord <= t)%Q as Hnext.
    { apply andb_false_iff in Egap as [H|H].
      - apply Qltb_false in H. exfalso. exact (Qlt_not_le _ _ Hended H).
      - now apply Qltb_false in H. }
    assert ((i =? 0)%Z = false) as -> by (apply Z.eqb_neq; lia).
    cbn [andb]. apply Qle_bool_iff in Hhead. rewrite Hhead.
    pose proof (IH (i + 1)%Z ltac:(lia) Hnext) as Hrec.
    replace (i + 1 - 1)%Z with i in Hrec by lia.
    destruct Hrec as [[E _]|(k & w' & Hr & Hk & Hw)]; [discriminate E|].
    exists (S k), w'. split; [rewrite Hr; lia|]. split; [exact Hk | exact Hw].
Qed.

Lemma currentWordLoop_first (t : Q) w rest :
  exists k w0,
    Subtitles.currentWordLoop t (w :: rest) 0 (-1) = Z.of_nat k
    /\ nth_error (w :: rest) k = Some w0
    /\ ((k = 0 /\ (t < start w0)%Q)
        \/ spokenAt t w0
        \/ ((end_ w0 < t)%Q
            /\ match nth_error (w :: rest) (S k) with
               | Some nextWord => (t < start nextWord)%Q
               | None => True
               end)).
Proof.
  simpl.
  destruct (Qle_bool (start w) t && Qle_bool t (end_ w)) eqn:Ewithin.
  { apply andb_true_iff in Ewithin as [H1 H2].
    apply Qle_bool_iff in H1, H2.
    exists 0, w. repeat split. right. left. now split. }
  assert (forall nextWord rest',
             rest = nextWord :: rest' ->
             (Qltb (end_ w) t && Qltb t (start nextWord)) = true ->
             exists k w0,
               0%Z = Z.of_nat k /\ nth_error (w :: rest) k = Some w0
               /\ ((k = 0 /\ (t < start w0)%Q)
                   \/ spokenAt t w0
                   \/ ((end_ w0 < t)%Q
                       /\ match nth_error (w :: rest) (S k) with
                          | Some n => (t < start n)%Q
                          | None => True
                          end))) as Hgap.
  { intros nextWord rest' -> Egap.
    apply andb_true_iff in Egap as [H1 H2]. apply Qltb_lt in H1, H2.
    exists 0, w. repeat split. right. right. now split. }
  destruct (Qltb t (start w)) eqn:Ebefore.
  { apply Qltb_lt in Ebefore.
    assert (exists k w0,
               0%Z = Z.of_nat k /\ nth_error (w :: rest) k = Some w0
               /\ ((k = 0 /\ (t < start w0)%Q)
                   \/ spokenAt t w0
                   \/ ((end_ w0 < t)%Q
                       /\ match nth_error (w :: rest) (S k) with
                          | Some n => (t < start n)%Q
                          | None => True
                          end))) as Hfirst
      by (exists 0, w; repeat split; left; now split).
    destruct rest as [|nextWord rest']; [exact Hfirst|].
    destruct (Qltb (end_ w) t && Qltb t (start nextWord)) eqn:Egap;
      [now apply (Hgap nextWord rest') | exact Hfirst]. }
  apply Qltb_false in Ebefore.
  assert (end_ w < t)%Q as Hended.
  { apply andb_false_iff in Ewithin as [H|H].
    - apply Qle_bool_false in H. exfalso. exact (Qlt_not_le _ _ H Ebefore).
    - now apply Qle_bool_false in H. }
  pose proof Ebefore as Hstarted. apply Qle_bool_iff in Hstarted.
  destruct rest as [|nextWord rest'].
  - simpl. rewrite Hstarted.
    exists 0, w. repeat split. right. right. now split.
  - destruct (Qltb (end_ w) t && Qltb t (start nextWord)) eqn:Egap;
      [now apply (Hgap nextWord rest')|].
    assert (start nextWord <= t)%Q as Hnext.
    { apply andb_false_iff in Egap as [H|H].
      - apply Qltb_false in H. exfalso. exact (Qlt_not_le _ _ Hended H).
      - now apply Qltb_false in H. }
    cbn [andb Z.eqb]. rewrite Hstarted.
    change (0 + 1)%Z with 1%Z. change 0%Z with (1 - 1)%Z at 1.
    destruct (currentWordLoop_from t (nextWord :: rest') 1 ltac:(lia) Hnext)
      as [[E _]|(k & w' & Hr & Hk & Hw)]; [discriminate E|].
    exists (S k), w'. split; [rewrite Hr; lia|].
    split; [exact Hk|]. right. exact Hw.
Qed.



(** ** [Subtitles]: what is shown *)

Lemma highlightFrom_upcoming (l : list Word) :
  forall g idx,
    (idx < g)%Z ->
    Subtitles.highlightFrom l g idx
    = List.map (fun x => (x, Subtitles.Upcoming)) l.
Proof.
  induction l as [|x l IH]; intros g idx H; simpl; [reflexivity|].
  assert ((g =? idx)%Z = false) as -> by (apply Z.eqb_neq; lia).
  assert ((g <? idx)%Z = false) as -> by (apply Z.ltb_ge; lia).
  f_equal. apply IH. lia.
Qed.

Lemma highlightFrom_split (l : list Word) :
  forall g idx,
    (g <= idx < g + Z.of_nat (List.length l))%Z ->
    exists before w after,
      l = (before ++ w :: after)%list
      /\ Z.of_nat (List.length before) = (idx - g)%Z
      /\ Subtitles.highlightFrom l g idx
         = (List.map (fun x => (x, Subtitles.Past)) before
            ++ (w, Subtitles.Active)
            :: List.map (fun x => (x, Subtitles.Upcoming)) after)%list.
Proof.
  induction l as [|x l IH]; intros g idx H; simpl in H; [lia|].
  simpl Subtitles.highlightFrom.
  destruct (g =? idx)%Z eqn:E.
  - apply Z.eqb_eq in E. subst idx.
    exists [], x, l. repeat split; [simpl; lia|].
    simpl. f_equal. apply highlightFrom_upcoming. lia.
  - apply Z.eqb_neq in E.
    assert ((g <? idx)%Z = true) as -> by (apply Z.ltb_lt; lia).
    destruct (IH (g + 1)%Z idx ltac:(lia)) as (b & w & a & -> & Hlen & Hh).
    exists (x :: b), w, a. repeat split; [simpl List.length; lia|].
    simpl. now rewrite Hh.
Qed.

(** X17. With words to show, the component shows a block of at most five
    consecutive words that begins at a multiple of five and is cut short
    only by the end of the list; exactly one of them, the current word, is
    marked active, those before it in the block as past and those after it
    as neither. *)
Theorem rendered_chunk ws (currentTime startTimeOffset : Q) :
  ws <> [] ->
  exists skipped before w after rest,
    ws = (skipped ++ before ++ w :: after ++ rest)%list
    /\ Subtitles.rendered ws currentTime startTimeOffset
       = (List.map (fun x => (x, Subtitles.Past)) before
          ++ (w, Subtitles.Active)
          :: List.map (fun x => (x, Subtitles.Upcoming)) after)%list
    /\ Subtitles.currentWordIndex ws currentTime startTimeOffset
       = Z.of_nat (List.length skipped + List.length before)
    /\ List.length skipped mod 5 = 0
    /\ List.length before + 1 + List.length after <= 5
    /\ (rest = [] \/ List.length before + 1 + List.length after = 5).
Proof.
  intro Hne.
  assert (exists k,
             Subtitles.currentWordIndex ws currentTime startTimeOffset
             = Z.of_nat k
             /\ k < List.length ws) as (k & Hidx & Hlt).
  { destruct ws as [|w0 ws']; [contradiction|].
    destruct (currentWordLoop_first (currentTime + startTimeOffset)%Q w0 ws')
      as (k & wk & Hidx & Hk & _).
    exists k. split; [exact Hidx|].
    apply nth_error_Some. rewrite Hk. discriminate. }
  unfold Subtitles.rendered, Subtitles.visibleWords, Subtitles.slice.
  rewrite Hidx.
  set (s := k / 5 * 5).
  assert (s <= k < s + 5) as Hs.
  { unfold s. pose proof (Nat.div_mod_eq k 5).
    pose proof (Nat.mod_upper_bound k 5). lia. }
  assert (Subtitles.chunkStart (Z.of_nat k) = Z.of_nat s) as ->.
  { unfold Subtitles.chunkStart, Subtitles.chunkSize, s.
    rewrite Z.max_r by lia.
    now rewrite Nat2Z.inj_mul, Nat2Z.inj_div. }
  unfold Subtitles.chunkSize.
  set (m := Nat.min (s + 5) (List.length ws) - s).
  assert (Z.to_nat (Z.min (Z.of_nat s + 5) (Z.of_nat (List.length ws))
                    - Z.of_nat s) = m) as -> by (unfold m; lia).
  rewrite Nat2Z.id.
  set (visible := firstn m (skipn s ws)).
  assert (List.length visible = m) as Hvis.
  { unfold visible. rewrite length_firstn, length_skipn. unfold m. lia. }
  destruct (highlightFrom_split visible (Z.of_nat s) (Z.of_nat k))
    as (before & w & after & Evis & Hlen & Hh); [rewrite Hvis; unfold m; lia|].
  exists (firstn s ws), before, w, after, (skipn m (skipn s ws)).
  assert (List.length (firstn s ws) = s) as Hskipped
    by (rewrite length_firstn; lia).
  assert (List.length before + 1 + List.length after = m) as Hblock.
  { rewrite <- Hvis, Evis, length_app. simpl. lia. }
  repeat split.
  - rewrite <- (firstn_skipn s ws) at 1. f_equal.
    rewrite <- (firstn_skipn m (skipn s ws)) at 1.
    fold visible. rewrite Evis, <- app_assoc. reflexivity.
  - exact Hh.
  - rewrite Hskipped. lia.
  - rewrite Hskipped. unfold s. apply Nat.Div0.mod_mul.
  - rewrite Hblock. unfold m. lia.
  - rewrite Hblock.
    destruct (Nat.le_gt_cases (s + 5) (List.length ws)) as [Hfull|Hshort].
    + right. unfold m. lia.
    + left. apply length_zero_iff_nil.
      rewrite !length_skipn. unfold m. lia.
Qed.

Lemma rendered_chunk_witness :
  exists skipped before w after rest,
    words (transcript Corpus.segA)
    = (skipped ++ before ++ w :: after ++ rest)%list
    /\ Subtitles.rendered (words (transcript Corpus.segA)) 31 100
       = (List.map (fun x => (x, Subtitles.Past)) before
          ++ (w, Subtitles.Active)
          :: List.map (fun x => (x, Subtitles.Upcoming)) after)%list
    /\ Subtitles.currentWordIndex (words (transcript Corpus.segA)) 31 100
       = Z.of_nat (List.length skipped + List.length before)
    /\ List.length skipped mod 5 = 0
    /\ List.length before + 1 + List.length after <= 5
    /\ (rest = [] \/ List.length before + 1 + List.length after = 5).
Proof.
  apply (rendered_chunk (words (transcript Corpus.segA)) 31 100).
  discriminate.
Defined.

(** ** [Subtitles]: words in the order they are spoken *)




